(** * Resumable chunked upload: the coordinator of rxjs-file-upload

    Shallow embedding of [chunkUpload.ts].  The repository holds two
    revisions of that file:

    - revision A, [src/chunkUpload.ts] (prototype-patched RxJS 5 operators);
    - revision B, the later pipeable rewrite with the event multiplexer.

    Both are embedded; where they differ the definitions take the revision
    as an argument.  The RxJS operators the file composes ([defer],
    [mergeAll], [mergeScan], [single], [distinctUntilChanged], [Subject])
    are library code and are modelled by their RxJS 5/6 behaviour, stated
    next to each definition. *)

From Stdlib Require Import ZArith QArith Lia Sorted.
From stdpp Require Import base functions list gmap fin_maps.

Open Scope Z_scope.
Set Warnings "-clear-no-such-hyp".

(** ** Data model *)

Inductive Revision := RevA | RevB.

(** [FileMeta]: the fields the coordinator reads; the remaining ones are
    opaque strings echoed to the server. *)
Record FileMeta := {
  chunkSize : Z;
  chunks : Z;
  fileSize : Z;
  uploadedChunks : list nat
}.

Record ChunkStatus := { index : nat; completed : bool }.

Record ChunkProgress := { cp_index : nat; loaded : Z }.

(** [ChunkScan]: two JS objects used as sets of indices
    ([acc.completes[i] = true]). *)
Record ChunkScan := {
  completes : gmap nat bool;
  errors : gmap nat bool
}.

(** ** Slicer *)

(** A [Blob] is its bytes.  [Blob_slice] is the File API's
    [Blob.slice(start, end)]: negative offsets count from the end, both are
    clamped to the blob, and an inverted range is empty. *)
Definition Blob := list Byte.byte.

Definition Blob_size (file : Blob) : Z := Z.of_nat (length file).

Definition Blob_slice (file : Blob) (start end_ : Z) : Blob :=
  let sz := Blob_size file in
  let relativeStart := if start <? 0 then Z.max (sz + start) 0 else Z.min start sz in
  let relativeEnd := if end_ <? 0 then Z.max (sz + end_) 0 else Z.min end_ sz in
  let span := Z.max (relativeEnd - relativeStart) 0 in
  take (Z.to_nat span) (drop (Z.to_nat relativeStart) file).

(** The body of the [for] loop of [sliceFile]: [todo] iterations remain,
    [i] is the loop counter and [result] the array pushed to. *)
Fixpoint sliceFile_loop (file : Blob) (chunks chunkSize : Z)
    (todo : nat) (i : Z) (result : list Blob) : list Blob :=
  match todo with
  | O => result
  | S todo' =>
      let startSize := i * chunkSize in
      let endSize :=
        if i =? chunks - 1 then startSize + (Blob_size file - startSize)
        else (i + 1) * chunkSize in
      let slice := Blob_slice file startSize endSize in
      sliceFile_loop file chunks chunkSize todo' (i + 1) (result ++ [slice])
  end.

Definition sliceFile (file : Blob) (chunks chunkSize : Z) : list Blob :=
  sliceFile_loop file chunks chunkSize (Z.to_nat chunks) 0 [].

(** The bytes of [file] at offsets [from, to). *)
Definition bytes_between (file : Blob) (from to : Z) : Blob :=
  take (Z.to_nat (to - from)) (drop (Z.to_nat from) file).

(** Loop iteration [i] of [sliceFile], as a function of the counter. *)
Definition sliceFile_iteration (file : Blob) (chunks chunkSize : Z) (i : Z) : Blob :=
  let startSize := i * chunkSize in
  let endSize :=
    if i =? chunks - 1 then startSize + (Blob_size file - startSize)
    else (i + 1) * chunkSize in
  Blob_slice file startSize endSize.

(** ** Chunk dispatcher: [uploadAllChunks] *)

(** The initial value of the closure variable [completed] of chunk [i]:
    [fileMeta.uploadedChunks.indexOf(i) >= 0] in revision A, [false] in
    revision B. *)
Definition completed_init (rev : Revision) (fileMeta : FileMeta) (i : nat) : bool :=
  match rev with
  | RevA => bool_decide (i ∈ uploadedChunks fileMeta)
  | RevB => false
  end.

(** What subscribing to the deferred observable of chunk [i] does. *)
Inductive ChunkRequest := Empty | Post (i : nat).

Definition chunkRequest (completedFlag : bool) (i : nat) : ChunkRequest :=
  if completedFlag then Empty else Post i.

(** [chunks.length > 3 ? 3 : 1] *)
Definition threshold (chunksLength : nat) : nat :=
  if (3 <? chunksLength)%nat then 3%nat else 1%nat.

(** The guard of [Observable.throw]:
    [errorsCount >= (chunks.length > 3 ? 3 : 1)] in revision A,
    the truthiness of [errorsCount] in revision B. *)
Definition errors_trip (rev : Revision) (chunksLength errorsCount : nat) : bool :=
  match rev with
  | RevA => (threshold chunksLength <=? errorsCount)%nat
  | RevB => negb (errorsCount =? 0)%nat
  end.

(** [acc[x.completed ? 'completes' : 'errors'][x.index] = true] *)
Definition record_status (acc : ChunkScan) (x : ChunkStatus) : ChunkScan :=
  if completed x
  then {| completes := <[index x := true]> (completes acc); errors := errors acc |}
  else {| completes := completes acc; errors := <[index x := true]> (errors acc) |}.

(** The accumulator function handed to [mergeScan].  It mutates the
    accumulator object in place, so both results carry the object as the
    function leaves it. *)
Inductive ScanResult :=
  | ScanOf (acc : ChunkScan)      (* Observable.of(acc) *)
  | ScanThrow (acc : ChunkScan).  (* Observable.throw(Multiple_Chunk_Upload_Error) *)

Definition scanChunk (rev : Revision) (chunksLength : nat)
    (acc : ChunkScan) (x : ChunkStatus) : ScanResult :=
  let acc1 := record_status acc x in
  let errorsCount := size (errors acc1) in
  if errors_trip rev chunksLength errorsCount
  then ScanThrow {| completes := completes acc1; errors := ∅ |}
  else ScanOf acc1.

Definition scan_object (r : ScanResult) : ChunkScan :=
  match r with ScanOf acc => acc | ScanThrow acc => acc end.

Definition scan_throws (r : ScanResult) : bool :=
  match r with ScanOf _ => false | ScanThrow _ => true end.

(** The seed literal [{ completes: {}, errors: {} }]. *)
Definition seed : ChunkScan := {| completes := ∅; errors := ∅ |}.

(** The predicate handed to [single]:
    [Object.keys(acc.completes).length === chunks.length]. *)
Definition all_complete (chunksLength : nat) (acc : ChunkScan) : bool :=
  bool_decide (size (completes acc) = chunksLength).

Inductive RunError :=
  | Multiple_Chunk_Upload_Error
  | EmptyError
  | MoreThanOneElement.

(** State of one subscription to the observable [uploadAllChunks] returns.

    - [flags] and [acc] live in the closure of [uploadAllChunks]: the
      [completed] variables that are true, and the seed object, which
      [mergeScan] mutates; a re-subscription ([repeatWhen]) finds them as the
      previous one left them.
    - [buffer] and [active] belong to [mergeAll(3)]: inner observables not
      yet subscribed, and chunk POSTs in flight.
    - [hasValue] belongs to [mergeScan]; [seenValue] and [seen] (its
      [index] counter) to [single].
    - [posts] logs the chunk POSTs issued, [failure] the error that ended
      the subscription, if any. *)
Record Dispatch := {
  flags : gset nat;
  buffer : list nat;
  active : list nat;
  posts : list nat;
  acc : ChunkScan;
  hasValue : bool;
  seenValue : bool;
  seen : nat;
  failure : option RunError
}.

(** [mergeAll(3)]: while fewer than three inner observables are active,
    subscribe the next buffered one.  A completed chunk yields [empty()], which
    ends at once and frees its slot; any other issues its POST. *)
Fixpoint subscribeBuffered (flags : gset nat) (buffer active posts : list nat)
    : list nat * list nat * list nat :=
  match buffer with
  | [] => ([], active, posts)
  | i :: rest =>
      if (length active <? 3)%nat then
        match chunkRequest (bool_decide (i ∈ flags)) i with
        | Empty => subscribeBuffered flags rest active posts
        | Post j => subscribeBuffered flags rest (active ++ [j]) (posts ++ [j])
        end
      else (buffer, active, posts)
  end.

Definition mergeAll_fill (st : Dispatch) : Dispatch :=
  let '(b, a, p) := subscribeBuffered (flags st) (buffer st) (active st) (posts st) in
  {| flags := flags st; buffer := b; active := a; posts := p; acc := acc st;
     hasValue := hasValue st; seenValue := seenValue st; seen := seen st;
     failure := failure st |}.

(** [SingleSubscriber._next] on an accumulator emitted by [mergeScan]. *)
Definition single_next (chunksLength : nat) (st : Dispatch) : Dispatch :=
  let matched := all_complete chunksLength (acc st) in
  {| flags := flags st; buffer := buffer st; active := active st; posts := posts st;
     acc := acc st; hasValue := hasValue st;
     seenValue := seenValue st || matched;
     seen := S (seen st);
     failure := if matched && seenValue st then Some MoreThanOneElement else failure st |}.

(** The transport answers the POST of chunk [j]: [ok] is an HTTP success,
    otherwise an error, which [catch] turns into a status.  The status is
    folded by [mergeScan]; unless that throws, the accumulator is emitted to
    [single] and, the inner observable having completed, [mergeAll]
    subscribes the next buffered one.  Answers for chunks that are not in
    flight, or after the subscription has ended, have no effect. *)
Definition respond (rev : Revision) (chunksLength : nat)
    (st : Dispatch) (answer : nat * bool) : Dispatch :=
  let '(j, ok) := answer in
  match failure st with
  | Some _ => st
  | None =>
      if bool_decide (j ∈ active st) then
        let flags' := if ok then {[j]} ∪ flags st else flags st in
        let active' := filter (λ i, i ≠ j) (active st) in
        match scanChunk rev chunksLength (acc st) {| index := j; completed := ok |} with
        | ScanThrow acc' =>
            {| flags := flags'; buffer := buffer st; active := active'; posts := posts st;
               acc := acc'; hasValue := hasValue st; seenValue := seenValue st;
               seen := seen st; failure := Some Multiple_Chunk_Upload_Error |}
        | ScanOf acc' =>
            let st' := single_next chunksLength
              {| flags := flags'; buffer := buffer st; active := active'; posts := posts st;
                 acc := acc'; hasValue := true; seenValue := seenValue st;
                 seen := seen st; failure := None |} in
            match failure st' with
            | Some _ => st'
            | None => mergeAll_fill st'
            end
        end
      else st
  end.

(** The closure state a call of [uploadAllChunks] creates. *)
Definition initial_flags (rev : Revision) (chunksLength : nat) (fileMeta : FileMeta)
    : gset nat :=
  list_to_set (filter (λ i, completed_init rev fileMeta i = true) (seq 0 chunksLength)).

(** Subscribing: [Observable.from(chunkRequests$)] hands every inner
    observable to [mergeAll(3)] in index order. *)
Definition subscribe (chunksLength : nat) (closureFlags : gset nat) (closureAcc : ChunkScan)
    : Dispatch :=
  mergeAll_fill
    {| flags := closureFlags; buffer := seq 0 chunksLength; active := []; posts := [];
       acc := closureAcc; hasValue := false; seenValue := false; seen := 0%nat;
       failure := None |}.

Definition run (rev : Revision) (chunksLength : nat)
    (st : Dispatch) (answers : list (nat * bool)) : Dispatch :=
  foldl (respond rev chunksLength) st answers.

(** The first subscription to [uploadAllChunks(chunks, fileMeta, ...)],
    driven by the transport's answers in the order they arrive. *)
Definition uploadAllChunks (rev : Revision) (chunks : list Blob) (fileMeta : FileMeta)
    (answers : list (nat * bool)) : Dispatch :=
  run rev (length chunks)
    (subscribe (length chunks) (initial_flags rev (length chunks) fileMeta) seed)
    answers.

(** What the subscriber of [uploadAllChunks] has received.  When the last
    inner observable completes, RxJS 5/6 [mergeScan] first emits its
    accumulator if it has emitted nothing so far
    ([if (this.hasValue === false) destination.next(this.acc)]) and then
    completes; [single] on completion raises [EmptyError] if it saw no value,
    and otherwise emits the one value that matched, or [undefined] if none
    did.  The emitted value is the accumulator object itself. *)
Inductive Outcome :=
  | Pending                             (* requests still in flight or buffered *)
  | Emitted (value : option ChunkScan)  (* next(value); complete(); None is undefined *)
  | Failed (e : RunError).

Definition settled (st : Dispatch) : bool :=
  bool_decide (active st = []) && bool_decide (buffer st = []).

Definition mergeScan_complete (chunksLength : nat) (st : Dispatch) : Dispatch :=
  if hasValue st then st else single_next chunksLength st.

Definition single_complete (st : Dispatch) : Outcome :=
  match failure st with
  | Some e => Failed e
  | None =>
      if (0 <? seen st)%nat
      then Emitted (if seenValue st then Some (acc st) else None)
      else Failed EmptyError
  end.

Definition outcome (chunksLength : nat) (st : Dispatch) : Outcome :=
  match failure st with
  | Some e => Failed e
  | None =>
      if settled st then single_complete (mergeScan_complete chunksLength st)
      else Pending
  end.

(** What follows the run in [chunkUpload].  Revision A maps whatever the
    run emits to the [FileMeta] ([.mapTo(fileMeta)]) and hands it to
    [concatMap(finishChunkUpload)]; in revision B the value ends [progress$]
    ([takeUntil(chunks$)]) and [concat] moves on to [finish$].  Either way
    every emitted value, [undefined] included, issues the finish POST, and an
    error or a pending run issues none. *)
Definition finish_requests (o : Outcome) : nat :=
  match o with
  | Emitted _ => 1%nat
  | Pending | Failed _ => 0%nat
  end.

(** Chunk [i] is one the first subscription has to upload. *)
Definition dispatched (rev : Revision) (fileMeta : FileMeta) (i : nat) : Prop :=
  completed_init rev fileMeta i = false.

#[global] Instance dispatched_dec rev fileMeta i : Decision (dispatched rev fileMeta i).
Proof. unfold dispatched. apply _. Defined.

(** Invariant of the first subscription to [uploadAllChunks]: [mergeAll]
    has consumed a prefix of the index sequence and POSTed exactly its chunks
    that were not completed; every POSTed chunk is in flight or recorded once
    in the accumulator. *)
Record DispatchInv (rev : Revision) (chunksLength : nat) (fileMeta : FileMeta)
    (st : Dispatch) : Prop := {
  inv_consumed : exists consumed : list nat,
    seq 0 chunksLength = consumed ++ buffer st /\
    posts st = filter (dispatched rev fileMeta) consumed;
  inv_flags : forall i : nat, i ∈ buffer st ->
    (i ∈ flags st <-> completed_init rev fileMeta i = true);
  inv_active_nodup : NoDup (active st);
  inv_active_posted : forall i : nat, i ∈ active st -> i ∈ posts st;
  inv_active_bound : (length (active st) <= 3)%nat;
  inv_folded : failure st = None -> forall i : nat,
    is_Some (completes (acc st) !! i) \/ is_Some (errors (acc st) !! i) ->
    i ∈ posts st /\ i ∉ active st;
  inv_disjoint : failure st = None -> forall i : nat,
    is_Some (completes (acc st) !! i) -> errors (acc st) !! i = None;
  inv_count : failure st = None ->
    (size (completes (acc st)) + size (errors (acc st)) + length (active st)
     = length (posts st))%nat;
  inv_seen : failure st = None -> seenValue st = true ->
    size (completes (acc st)) = chunksLength
}.

(** An answer of the transport that reports a failed POST. *)
Definition failing (answer : nat * bool) : Prop := answer.2 = false.

#[global] Instance failing_dec answer : Decision (failing answer).
Proof. unfold failing. apply _. Defined.

(** The status a failed POST of chunk [i] is turned into by [catch]. *)
Definition failed (i : nat) : ChunkStatus := {| index := i; completed := false |}.

(** ** Session opener: [startChunkUpload] *)

(** What the factory handed to [defer] returns:
    [cache ? Observable.of(cache) : post({...}).do(fileMeta => cache = fileMeta)]. *)
Inductive OpenerSource := OfCache (fileMeta : FileMeta) | PostStart.

Definition startChunkUpload_defer (cache : option FileMeta) : OpenerSource :=
  match cache with
  | Some fileMeta => OfCache fileMeta
  | None => PostStart
  end.

(** The closure variable [cache], the session-open POSTs issued, those
    still awaiting a reply, and the values delivered to subscribers. *)
Record Opener := {
  cache : option FileMeta;
  startPosts : nat;
  awaiting : nat;
  delivered : list FileMeta
}.

Inductive OpenerEvent :=
  | Subscribe                      (* a stage subscribes to the deferred observable *)
  | Reply (fileMeta : FileMeta).   (* the server answers a pending session-open *)

Definition opener_step (o : Opener) (e : OpenerEvent) : Opener :=
  match e with
  | Subscribe =>
      match startChunkUpload_defer (cache o) with
      | OfCache fileMeta =>
          {| cache := cache o; startPosts := startPosts o; awaiting := awaiting o;
             delivered := delivered o ++ [fileMeta] |}
      | PostStart =>
          {| cache := cache o; startPosts := S (startPosts o);
             awaiting := S (awaiting o); delivered := delivered o |}
      end
  | Reply fileMeta =>
      match awaiting o with
      | O => o
      | S n =>
          {| cache := Some fileMeta; startPosts := startPosts o; awaiting := n;
             delivered := delivered o ++ [fileMeta] |}
      end
  end.

(** [startChunkUpload(file, config)]: a fresh closure, [let cache = null]. *)
Definition startChunkUpload : Opener :=
  {| cache := None; startPosts := 0; awaiting := 0; delivered := [] |}.

Definition opener_run (events : list OpenerEvent) : Opener :=
  foldl opener_step startChunkUpload events.

(** The discipline of subscribers that never overlap: nobody subscribes
    while a session-open request is awaiting its reply. *)
Fixpoint sequential (o : Opener) (events : list OpenerEvent) : bool :=
  match events with
  | [] => true
  | e :: rest =>
      match e with
      | Subscribe => (awaiting o =? 0)%nat
      | Reply _ => true
      end && sequential (opener_step o e) rest
  end.

(** The subscriptions an engine makes.  In revision B the stages of
    [upload$] sit in a [concat], which subscribes a stage only after the one
    before it has completed: the [chunkstart] stage subscribes first and
    completes on the server's reply, and only then do [progress$] (twice: in
    [combineLatest] and through [chunks$]) and [finish$] subscribe.  In
    revision A [publishReplay(1).refCount()] holds the one subscription.  So
    the first subscription is answered before any of the [later] ones. *)
Definition engine_subscriptions (fileMeta : FileMeta) (later : nat) : list OpenerEvent :=
  Subscribe :: Reply fileMeta :: repeat Subscribe later.

(** ** Progress stage *)

(** [acc[cp.index] = cp.loaded; return acc] *)
Definition scanProgress (acc : gmap nat Z) (cp : ChunkProgress) : gmap nat Z :=
  <[cp_index cp := loaded cp]> acc.

(** [Object.keys(acc).reduce((t, i) => t + acc[i], 0)] *)
Definition totalLoaded (acc : gmap nat Z) : Z :=
  map_fold (λ _ bytes t, t + bytes) 0 acc.

(** [... / fileMeta.fileSize], over the rationals. *)
Definition progressOf (fileMeta : FileMeta) (acc : gmap nat Z) : Q :=
  (inject_Z (totalLoaded acc) / inject_Z (fileSize fileMeta))%Q.

(** [scan] emits its accumulator after every [ChunkProgress]. *)
Fixpoint scan_states (acc : gmap nat Z) (events : list ChunkProgress)
    : list (gmap nat Z) :=
  match events with
  | [] => []
  | cp :: rest => scanProgress acc cp :: scan_states (scanProgress acc cp) rest
  end.

(** [distinctUntilChanged(compare)]: the first value passes; a later value
    is dropped when [compare(key, value)] holds for the last value passed, and
    otherwise passes and becomes the key. *)
Fixpoint distinctUntilChanged {A : Type} (compare : A -> A -> bool)
    (key : option A) (values : list A) : list A :=
  match values with
  | [] => []
  | v :: rest =>
      match key with
      | Some k =>
          if compare k v then distinctUntilChanged compare key rest
          else v :: distinctUntilChanged compare (Some v) rest
      | None => v :: distinctUntilChanged compare (Some v) rest
      end
  end.

(** [(x, y) => x > y] *)
Definition greater (x y : Q) : bool := negb (Qle_bool x y).

(** The values the first subscription to [progress$] emits for the given
    [ChunkProgress] events; [fileMeta] is the value replayed by the opener. *)
Definition progress (fileMeta : FileMeta) (events : list ChunkProgress) : list Q :=
  distinctUntilChanged greater None (map (progressOf fileMeta) (scan_states ∅ events)).

(** The bytes chunk [i] reported last. *)
Definition latest_loaded (i : nat) (events : list ChunkProgress) : option Z :=
  loaded <$> last (filter (λ cp, cp_index cp = i) events).

(** ** Control plane and event multiplexer *)

Inductive UploadEvent :=
  | Start
  | Chunkstart (fileMeta : FileMeta)
  | Progress (f : Q)
  | Pausable (b : bool)
  | Retryable (b : bool)
  | ErrorEvent (e : RunError)
  | Finish.

(** The subjects made by [createChunkUploadSubjects]. *)
Inductive SubjectName :=
  | startSubject | retrySubject | abortSubject
  | progressSubject | controlSubject | errorSubject.

#[global] Instance SubjectName_eq_dec : EqDecision SubjectName.
Proof. solve_decision. Defined.

(** The subscribers the pipeline of revision B attaches to its subjects:

    - [AbortNotifier]: the notifier side of [takeUntil(abortSubject)];
    - [AbortFlags]: [abortSubject.pipe(concatMap(() =>
      of(pausable(false), retryable(false))))], merged into the output;
    - [RetryFlags]: [retrySubject.pipe(map(b => retryable(!b)))], merged
      into the output;
    - [ErrorEvents]: [errorSubject.pipe(map(e => error(e)))], merged into the
      output;
    - [Stage name]: a stage of the inner pipeline listening to [name]
      ([take(1)] on the start subject, [pause$] and [resume$] on the control
      subject, [scan] on the progress subject, the retry gate on the retry
      subject). *)
Inductive Observer :=
  | AbortNotifier
  | AbortFlags
  | RetryFlags
  | ErrorEvents
  | Stage (name : SubjectName).

#[global] Instance Observer_eq_dec : EqDecision Observer.
Proof. solve_decision. Defined.

Inductive Value :=
  | VUnit
  | VBool (b : bool)
  | VProgress (cp : ChunkProgress)
  | VError (e : RunError).

Inductive Exn := ObjectUnsubscribedError.

(** An RxJS [Subject]: its two flags and its observers in the order they
    subscribed. *)
Record Subject := {
  closed : bool;
  isStopped : bool;
  observers : list Observer
}.

(** The engine, seen from its subjects.

    - [startEvents] is the buffer of the [ReplaySubject(1)];
    - [stopped] lists the subscribers whose [isStopped] is set;
    - [inbox] logs the values handed to stages of the inner pipeline;
    - [upstreamDone] and [upstreamFailed] tell how the chain ending in
      [tap(() => {}, cleanUp, cleanUp)] has terminated;
    - [output] is what the subscriber of [upload$] has received. *)
Record Engine := {
  subjects : SubjectName -> Subject;
  startEvents : list Value;
  stopped : list Observer;
  inbox : list (SubjectName * Value);
  upstreamDone : bool;
  upstreamFailed : bool;
  output : list UploadEvent
}.

(** A call either returns or throws; the engine is left as the call made
    it in both cases. *)
Inductive Result :=
  | Ok (eng : Engine)
  | Throw (eng : Engine) (e : Exn).

Definition and_then (r : Result) (f : Engine -> Result) : Result :=
  match r with
  | Ok eng => f eng
  | Throw eng e => Throw eng e
  end.

Notation "r >>> f" := (and_then r f) (at level 50, left associativity).

Definition result_engine (r : Result) : Engine :=
  match r with Ok eng => eng | Throw eng _ => eng end.

Definition throws (r : Result) : bool :=
  match r with Ok _ => false | Throw _ _ => true end.

Definition with_subject (name : SubjectName) (s : Subject) (eng : Engine) : Engine :=
  {| subjects := <[name := s]> (subjects eng); startEvents := startEvents eng;
     stopped := stopped eng; inbox := inbox eng; upstreamDone := upstreamDone eng;
     upstreamFailed := upstreamFailed eng; output := output eng |}.

Definition with_stopped (l : list Observer) (eng : Engine) : Engine :=
  {| subjects := subjects eng; startEvents := startEvents eng;
     stopped := l; inbox := inbox eng; upstreamDone := upstreamDone eng;
     upstreamFailed := upstreamFailed eng; output := output eng |}.

(** The three [merge]s that end the pipe complete once their source and
    the three merged branches have completed. *)
Definition output_completed (eng : Engine) : bool :=
  upstreamDone eng && bool_decide (ErrorEvents ∈ stopped eng)
  && bool_decide (RetryFlags ∈ stopped eng) && bool_decide (AbortFlags ∈ stopped eng).

Definition emit (events : list UploadEvent) (eng : Engine) : Engine :=
  if output_completed eng || upstreamFailed eng then eng
  else {| subjects := subjects eng; startEvents := startEvents eng;
          stopped := stopped eng; inbox := inbox eng; upstreamDone := upstreamDone eng;
          upstreamFailed := upstreamFailed eng; output := output eng ++ events |}.

(** [Subject.complete()]: throws on a closed subject; otherwise stops the
    subject, completes every observer and empties the list. *)
Definition Subject_complete (name : SubjectName) (eng : Engine) : Result :=
  let s := subjects eng name in
  if closed s then Throw eng ObjectUnsubscribedError
  else Ok (with_stopped (stopped eng ++ observers s)
             (with_subject name {| closed := false; isStopped := true; observers := [] |} eng)).

(** [Subject.unsubscribe()]: [isStopped = true; closed = true; observers = null]. *)
Definition Subject_unsubscribe (name : SubjectName) (eng : Engine) : Engine :=
  with_subject name {| closed := true; isStopped := true; observers := [] |} eng.

Definition teardown (name : SubjectName) (eng : Engine) : Result :=
  Subject_complete name eng >>> (λ eng', Ok (Subject_unsubscribe name eng')).

Fixpoint teardown_all (names : list SubjectName) (eng : Engine) : Result :=
  match names with
  | [] => Ok eng
  | name :: rest => teardown name eng >>> teardown_all rest
  end.

(** [cleanUp] of revision B: [complete()] then [unsubscribe()] on each
    subject, in the order of the source. *)
Definition cleanUp (eng : Engine) : Result :=
  teardown_all [retrySubject; abortSubject; controlSubject;
                progressSubject; startSubject; errorSubject] eng.

(** [Subscriber.next]: a stopped subscriber ignores the value.  Otherwise:
    the notifier of [takeUntil] completes the chain, whose [tap] runs
    [cleanUp] before passing the completion on (and turns an exception of
    [cleanUp] into an error); the merged branches emit their events; an inner
    stage receives the value. *)
Definition Observer_next (v : Value) (eng : Engine) (o : Observer) : Engine :=
  if bool_decide (o ∈ stopped eng) then eng
  else match o with
       | AbortNotifier =>
           match cleanUp (with_stopped (stopped eng ++ [AbortNotifier]) eng) with
           | Ok eng' =>
               {| subjects := subjects eng'; startEvents := startEvents eng';
                  stopped := stopped eng'; inbox := inbox eng'; upstreamDone := true;
                  upstreamFailed := upstreamFailed eng'; output := output eng' |}
           | Throw eng' _ =>
               {| subjects := subjects eng'; startEvents := startEvents eng';
                  stopped := stopped eng'; inbox := inbox eng';
                  upstreamDone := upstreamDone eng'; upstreamFailed := true;
                  output := output eng' |}
           end
       | AbortFlags => emit [Pausable false; Retryable false] eng
       | RetryFlags =>
           match v with
           | VBool b => emit [Retryable (negb b)] eng
           | _ => eng
           end
       | ErrorEvents =>
           match v with
           | VError e => emit [ErrorEvent e] eng
           | _ => eng
           end
       | Stage name =>
           {| subjects := subjects eng; startEvents := startEvents eng;
              stopped := stopped eng; inbox := inbox eng ++ [(name, v)];
              upstreamDone := upstreamDone eng; upstreamFailed := upstreamFailed eng;
              output := output eng |}
       end.

(** [Subject.next(value)]: throws on a closed subject; otherwise, unless
    the subject is stopped, hands the value to a copy of the observer list,
    one observer after the other. *)
Definition Subject_next (name : SubjectName) (v : Value) (eng : Engine) : Result :=
  let s := subjects eng name in
  if closed s then Throw eng ObjectUnsubscribedError
  else if isStopped s then Ok eng
  else Ok (foldl (Observer_next v) eng (observers s)).

(** [ReplaySubject(1).next(value)]: keeps the value as the one to replay,
    then behaves as [Subject.next]. *)
Definition ReplaySubject_next (v : Value) (eng : Engine) : Result :=
  let eng' :=
    if isStopped (subjects eng startSubject) then eng
    else {| subjects := subjects eng; startEvents := [v]; stopped := stopped eng;
            inbox := inbox eng; upstreamDone := upstreamDone eng;
            upstreamFailed := upstreamFailed eng; output := output eng |} in
  Subject_next startSubject v eng'.

(** The methods of the handle revision B returns. *)
Definition start (eng : Engine) : Result :=
  if negb (closed (subjects eng startSubject)) then ReplaySubject_next VUnit eng
  else Ok eng.

Definition pause (eng : Engine) : Result :=
  if negb (closed (subjects eng controlSubject))
  then Subject_next controlSubject (VBool true) eng
  else Ok eng.

Definition resume (eng : Engine) : Result :=
  if negb (closed (subjects eng controlSubject))
  then Subject_next controlSubject (VBool false) eng
  else Ok eng.

Definition retry (eng : Engine) : Result :=
  if negb (closed (subjects eng retrySubject))
  then Subject_next retrySubject (VBool true) eng
  else Ok eng.

Definition abort (eng : Engine) : Result :=
  if negb (closed (subjects eng abortSubject))
  then Subject_next abortSubject VUnit eng
  else Ok eng.

Inductive Method := call_start | call_pause | call_resume | call_retry | call_abort.

Definition call (m : Method) (eng : Engine) : Result :=
  match m with
  | call_start => start eng
  | call_pause => pause eng
  | call_resume => resume eng
  | call_retry => retry eng
  | call_abort => abort eng
  end.

(** Revision A: [cleanUp] only unsubscribes its four subjects, and the
    methods call [next] unguarded. *)
Definition cleanUp_A (eng : Engine) : Engine :=
  Subject_unsubscribe controlSubject
    (Subject_unsubscribe progressSubject
       (Subject_unsubscribe abortSubject
          (Subject_unsubscribe retrySubject eng))).

Definition pause_A (eng : Engine) : Result := Subject_next controlSubject (VBool true) eng.

(** The engine of revision B once [upload$] has its subscriber.  The
    operators of a pipe subscribe upstream first, and [merge(source, other)]
    subscribes [source] before [other]: [takeUntil(abortSubject)] has
    therefore subscribed to the abort subject before the last [merge] attaches
    the flag-cleanup branch, and the observers of the abort subject are
    [AbortNotifier; AbortFlags], in this order.  [inner] gives the inner
    stages listening to a subject at the moment considered. *)
Definition open_subject (l : list Observer) : Subject :=
  {| closed := false; isStopped := false; observers := l |}.

Definition subscribed_subjects (inner : SubjectName -> list Observer)
    (name : SubjectName) : Subject :=
  match name with
  | abortSubject => open_subject [AbortNotifier; AbortFlags]
  | retrySubject => open_subject (RetryFlags :: inner retrySubject)
  | errorSubject => open_subject [ErrorEvents]
  | other => open_subject (inner other)
  end.

Definition subscribed (inner : SubjectName -> list Observer)
    (emitted : list UploadEvent) : Engine :=
  {| subjects := subscribed_subjects inner; startEvents := [VUnit]; stopped := [];
     inbox := []; upstreamDone := false; upstreamFailed := false; output := emitted |}.

(** While the session-open request is pending no inner stage listens. *)
Definition opening : Engine :=
  subscribed (λ _, []) [Start; Pausable true; Retryable false].

(** While chunks upload, [scan] listens to the progress subject, and the
    control subject has three listeners: the two [merge]s of [progress$]
    (through [pause$] and [resume$]) and [takeUntil(pause$)]. *)
Definition uploading (fileMeta : FileMeta) : Engine :=
  subscribed
    (λ name, match name with
             | progressSubject => [Stage progressSubject]
             | controlSubject => repeat (Stage controlSubject) 3
             | _ => []
             end)
    [Start; Pausable true; Retryable false; Chunkstart fileMeta].

(** ** Sample inputs

    A 500-byte file cut into five chunks of 100 bytes, as in the end-to-end
    scenarios. *)
Definition file500 : Blob := repeat Byte.x00 500.

Definition meta5 (uploaded : list nat) : FileMeta :=
  {| chunkSize := 100; chunks := 5; fileSize := 500; uploadedChunks := uploaded |}.

Definition chunks5 : list Blob := sliceFile file500 5 100.

(** ** Re-subscription, request bodies and the retry gate *)

(** [repeatWhen(() => resume$)] subscribes again to the observable
    [uploadAllChunks] returned: the [completed] variables and the seed object
    are those of the closure, as the previous subscription left them. *)
Definition resubscribe (chunksLength : nat) (st : Dispatch) : Dispatch :=
  subscribe chunksLength (flags st) (acc st).

(** The bodies of the chunk POSTs issued ([body: chunk]), in the order of
    the log. *)
Definition chunk_bodies (chunks : list Blob) (posts : list nat) : list Blob :=
  omap (λ i, chunks !! i) posts.

(** Invariant of a subscription that starts from the closure flags [F0]:
    [mergeAll] has consumed a prefix of the index sequence and POSTed exactly
    its chunks outside [F0]. *)
Record ResumeInv (chunksLength : nat) (F0 : gset nat) (st : Dispatch) : Prop := {
  ri_consumed : exists consumed : list nat,
    seq 0 chunksLength = consumed ++ buffer st /\
    posts st = filter (λ i, i ∉ F0) consumed;
  ri_flags : forall i : nat, i ∈ buffer st -> (i ∈ flags st <-> i ∈ F0);
  ri_active : forall i : nat, i ∈ active st -> i ∈ posts st;
  ri_mono : F0 ⊆ flags st
}.

(** A paused and resumed upload: after the first subscription, each
    [resume$] notification makes [repeatWhen] subscribe again to the same
    observable; [segments] holds, per re-subscription, the answers of the
    transport that reach it before the next pause. *)
Fixpoint resumed (rev : Revision) (chunksLength : nat) (st : Dispatch)
    (segments : list (list (nat * bool))) : Dispatch :=
  match segments with
  | [] => st
  | answers :: rest =>
      resumed rev chunksLength
        (run rev chunksLength (resubscribe chunksLength st) answers) rest
  end.

(** Invariant of every subscription, the first or a later one: the keys of
    [completes] and the chunks buffered or in flight are chunk indices, and
    once [single] has seen a matching accumulator every index is in
    [completes]. *)
Record AccInv (chunksLength : nat) (st : Dispatch) : Prop := {
  ai_completes : forall i : nat,
    is_Some (completes (acc st) !! i) -> (i < chunksLength)%nat;
  ai_active : forall i : nat, i ∈ active st -> (i < chunksLength)%nat;
  ai_buffer : forall i : nat, i ∈ buffer st -> (i < chunksLength)%nat;
  ai_seen : seenValue st = true ->
    forall i : nat, (i < chunksLength)%nat -> is_Some (completes (acc st) !! i)
}.

(** The [tap] of the retry gate, run on every error that reaches
    [retryWhen]: [errorSubject.next(e); retrySubject.next(false)]. *)
Definition report_error (e : RunError) (eng : Engine) : Result :=
  Subject_next errorSubject (VError e) eng >>> Subject_next retrySubject (VBool false).

(** The default of a possibly empty list's last element. *)
Definition last_or {A : Type} (d : A) (l : list A) : A := default d (last l).

(* ================================================================== *)
(** * Proofs *)
(* ================================================================== *)

(** ** Slicer *)

Lemma Blob_slice_inside (file : Blob) (a b : Z) :
  0 <= a -> a <= b -> b <= Blob_size file ->
  Blob_slice file a b = bytes_between file a b.
Proof.
  intros Ha Hab Hb. unfold Blob_slice, bytes_between.
  destruct (Z.ltb_spec a 0); [lia|].
  destruct (Z.ltb_spec b 0); [lia|].
  rewrite (Z.min_l a), (Z.min_l b) by lia.
  by rewrite Z.max_l by lia.
Qed.

Lemma bytes_between_length (file : Blob) (a b : Z) :
  0 <= a -> a <= b -> b <= Blob_size file ->
  Z.of_nat (length (bytes_between file a b)) = b - a.
Proof.
  unfold bytes_between, Blob_size. intros Ha Hab Hb.
  rewrite length_take, length_drop. lia.
Qed.

Lemma bytes_between_app (file : Blob) (a b c : Z) :
  0 <= a -> a <= b -> b <= c ->
  bytes_between file a b ++ bytes_between file b c = bytes_between file a c.
Proof.
  intros Ha Hab Hbc. unfold bytes_between.
  replace (Z.to_nat b) with (Z.to_nat a + Z.to_nat (b - a))%nat by lia.
  rewrite <- drop_drop, take_take_drop. f_equal. lia.
Qed.

Lemma bytes_between_all (file : Blob) :
  bytes_between file 0 (Blob_size file) = file.
Proof.
  unfold bytes_between, Blob_size. rewrite drop_0, Z.sub_0_r, Nat2Z.id.
  by apply take_ge.
Qed.

Lemma sliceFile_loop_spec (file : Blob) (chunks chunkSize : Z) (todo : nat) :
  forall (i : Z) (result : list Blob),
    sliceFile_loop file chunks chunkSize todo i result =
    result ++ map (sliceFile_iteration file chunks chunkSize) (seqZ i (Z.of_nat todo)).
Proof.
  induction todo as [|todo IH]; intros i result.
  - simpl. by rewrite app_nil_r.
  - cbn [sliceFile_loop]. rewrite IH.
    rewrite (seqZ_cons i (Z.of_nat (S todo))) by lia.
    replace (Z.pred (Z.of_nat (S todo))) with (Z.of_nat todo) by lia.
    replace (Z.succ i) with (i + 1) by lia.
    by rewrite <- app_assoc.
Qed.

Lemma sliceFile_map (file : Blob) (chunks chunkSize : Z) :
  sliceFile file chunks chunkSize =
  map (sliceFile_iteration file chunks chunkSize) (seqZ 0 (Z.of_nat (Z.to_nat chunks))).
Proof. unfold sliceFile. by rewrite sliceFile_loop_spec. Qed.

Section Slicer.
Variables (file : Blob) (chunks chunkSize : Z).
Hypothesis chunks_pos : 1 <= chunks.
Hypothesis size_lower : chunkSize * (chunks - 1) < Blob_size file.
Hypothesis size_upper : Blob_size file <= chunkSize * chunks.

Lemma chunkSize_pos : 0 < chunkSize.
Proof. unfold Blob_size in *. nia. Qed.

Lemma sliceFile_iteration_range (i : Z) :
  0 <= i < chunks ->
  sliceFile_iteration file chunks chunkSize i =
  bytes_between file (i * chunkSize) (Z.min ((i + 1) * chunkSize) (Blob_size file)).
Proof.
  intros Hi. pose proof chunkSize_pos as Hc. unfold sliceFile_iteration.
  destruct (Z.eqb_spec i (chunks - 1)) as [->|Hne].
  - rewrite Z.min_r by nia.
    replace ((chunks - 1) * chunkSize + (Blob_size file - (chunks - 1) * chunkSize))
      with (Blob_size file) by lia.
    apply Blob_slice_inside; nia.
  - rewrite Z.min_l by nia. apply Blob_slice_inside; nia.
Qed.

Lemma sliceFile_prefix (k : nat) :
  Z.of_nat k <= chunks ->
  concat (map (sliceFile_iteration file chunks chunkSize) (seqZ 0 (Z.of_nat k))) =
  bytes_between file 0 (Z.min (Z.of_nat k * chunkSize) (Blob_size file)).
Proof.
  pose proof chunkSize_pos as Hc.
  induction k as [|k IH]; intros Hk.
  - simpl. unfold bytes_between. rewrite Z.min_l by (unfold Blob_size; lia). done.
  - replace (Z.of_nat (S k)) with (Z.of_nat k + 1) by lia.
    rewrite seqZ_app by lia. rewrite map_app, concat_app, IH by lia.
    rewrite Z.add_0_l. rewrite (seqZ_cons (Z.of_nat k) 1) by lia.
    change (Z.pred 1) with 0. rewrite seqZ_nil by lia. cbn [map concat].
    rewrite app_nil_r, sliceFile_iteration_range by lia.
    rewrite (Z.min_l (Z.of_nat k * chunkSize)) by nia.
    apply bytes_between_app; nia.
Qed.
End Slicer.

(** ** Chunk dispatcher *)

Lemma subscribeBuffered_split (F : gset nat) (b a p : list nat) :
  exists b1 : list nat,
    b = b1 ++ (subscribeBuffered F b a p).1.1 /\
    (subscribeBuffered F b a p).1.2 = a ++ filter (λ i, i ∉ F) b1 /\
    (subscribeBuffered F b a p).2 = p ++ filter (λ i, i ∉ F) b1.
Proof.
  revert a p. induction b as [|i rest IH]; intros a p.
  - exists []. simpl. by rewrite !app_nil_r.
  - cbn [subscribeBuffered]. destruct (length a <? 3)%nat.
    + unfold chunkRequest. case_bool_decide as Hi.
      * destruct (IH a p) as (b1 & Hb & Ha & Hp). exists (i :: b1).
        rewrite filter_cons_False by (intros ?; done).
        split; [simpl; by f_equal|done].
      * destruct (IH (a ++ [i]) (p ++ [i])) as (b1 & Hb & Ha & Hp). exists (i :: b1).
        rewrite filter_cons_True by done.
        split; [simpl; by f_equal|]. rewrite Ha, Hp, <- !app_assoc. done.
    + exists []. simpl. by rewrite !app_nil_r.
Qed.

Lemma subscribeBuffered_bound (F : gset nat) (b a p : list nat) :
  (length a <= 3)%nat -> (length (subscribeBuffered F b a p).1.2 <= 3)%nat.
Proof.
  revert a p. induction b as [|i rest IH]; intros a p Ha; [done|].
  cbn [subscribeBuffered]. destruct (Nat.ltb_spec (length a) 3); [|done].
  unfold chunkRequest. case_bool_decide; apply IH; [done|].
  rewrite length_app. simpl. lia.
Qed.

Lemma length_filter_remove (l : list nat) (j : nat) :
  NoDup l -> j ∈ l -> S (length (filter (λ i, i ≠ j) l)) = length l.
Proof.
  induction 1 as [|x l Hx Hl IH]; intros Hj.
  - by apply elem_of_nil in Hj.
  - apply elem_of_cons in Hj as [<-|Hj].
    + rewrite filter_cons_False by (intros ?; done). simpl. f_equal.
      clear IH Hl. induction l as [|y l IH]; [done|].
      apply not_elem_of_cons in Hx as [Hne Hx].
      rewrite filter_cons_True by done. simpl. f_equal. by apply IH.
    + rewrite filter_cons_True by (intros ->; done). simpl. f_equal. by apply IH.
Qed.

Lemma filter_ext_elem (P Q : nat -> Prop)
    `{!forall x, Decision (P x), !forall x, Decision (Q x)} (l : list nat) :
  (forall x, x ∈ l -> (P x <-> Q x)) -> filter P l = filter Q l.
Proof.
  induction l as [|x l IH]; intros Hext; [done|].
  rewrite !filter_cons. rewrite IH by (intros y Hy; apply Hext; set_solver).
  apply decide_ext, Hext. set_solver.
Qed.

Section DispatchInvariant.
Variables (rev : Revision) (chunksLength : nat) (fileMeta : FileMeta).

Let Inv := DispatchInv rev chunksLength fileMeta.

Lemma consumed_fresh (consumed rest : list nat) (i : nat) :
  seq 0 chunksLength = consumed ++ rest -> i ∈ consumed -> i ∉ rest.
Proof.
  intros Hseq Hi. pose proof (NoDup_seq 0 chunksLength) as Hnd.
  rewrite Hseq in Hnd. apply NoDup_app in Hnd as (_ & Hnd & _). by apply Hnd.
Qed.

Lemma posts_bound (st : Dispatch) :
  Inv st -> NoDup (posts st) /\ (length (posts st) <= chunksLength)%nat.
Proof.
  intros [(consumed & Hseq & Hposts) _ _ _ _ _ _ _ _].
  pose proof (NoDup_seq 0 chunksLength) as Hnd. rewrite Hseq in Hnd.
  apply NoDup_app in Hnd as (Hnd & _ & _).
  assert (length (seq 0 chunksLength) = chunksLength) as Hlen by apply length_seq.
  rewrite Hseq, length_app in Hlen.
  rewrite Hposts. split; [by apply NoDup_filter|].
  pose proof (length_filter (dispatched rev fileMeta) consumed). lia.
Qed.

Lemma DispatchInv_fill (st : Dispatch) : Inv st -> Inv (mergeAll_fill st).
Proof.
  intros HI. pose proof HI as [(consumed & Hseq & Hposts) Hfl Hnd Hap Hab Hfo Hdj Hct Hsn].
  unfold mergeAll_fill.
  destruct (subscribeBuffered_split (flags st) (buffer st) (active st) (posts st))
    as (b1 & Hb & Ha & Hp).
  pose proof (subscribeBuffered_bound (flags st) (buffer st) (active st) (posts st) Hab)
    as Hbound.
  destruct (subscribeBuffered (flags st) (buffer st) (active st) (posts st))
    as [[b a] p]. simpl in Hb, Ha, Hp, Hbound. subst a p.
  assert (Hnew : filter (λ i, i ∉ flags st) b1 = filter (dispatched rev fileMeta) b1).
  { clear Hbound. apply filter_ext_elem.
    intros i Hi. unfold dispatched.
    assert (i ∈ buffer st) as Hib by (rewrite Hb; set_solver).
    specialize (Hfl i Hib). destruct (completed_init rev fileMeta i); naive_solver. }
  rewrite Hnew in *.
  assert (Hfresh : forall i, i ∈ filter (dispatched rev fileMeta) b1 -> i ∉ consumed).
  { intros i Hi Hc. apply list_elem_of_filter in Hi as [_ Hi].
    apply (consumed_fresh consumed (buffer st) i Hseq Hc). rewrite Hb. set_solver. }
  assert (Hposted : forall i, i ∈ posts st -> i ∈ consumed).
  { intros i. rewrite Hposts, list_elem_of_filter. tauto. }
  constructor; simpl.
  - exists (consumed ++ b1). split.
    + by rewrite <- app_assoc, <- Hb.
    + by rewrite filter_app, Hposts.
  - intros i Hi. apply Hfl. rewrite Hb. set_solver.
  - apply NoDup_app. split; [done|]. split.
    + intros i Hi Hi'. apply (Hfresh i Hi'). auto.
    + apply NoDup_filter.
      pose proof (NoDup_seq 0 chunksLength) as Hs. rewrite Hseq, Hb in Hs.
      apply NoDup_app in Hs as (_ & _ & Hs). by apply NoDup_app in Hs as (Hs & _).
  - intros i [Hi|Hi]%elem_of_app; set_solver.
  - done.
  - intros Hf i Hi. destruct (Hfo Hf i Hi) as [Hpi Hai]. split; [set_solver|].
    intros [?|Hi']%elem_of_app; [done|]. apply (Hfresh i Hi'). auto.
  - done.
  - intros Hf. rewrite !length_app. specialize (Hct Hf). lia.
  - done.
Qed.

Lemma DispatchInv_respond (st : Dispatch) (answer : nat * bool) :
  Inv st -> Inv (respond rev chunksLength st answer).
Proof.
  intros HI. destruct answer as [j ok]. unfold respond.
  destruct (failure st) eqn:Hfail; [done|].
  case_bool_decide as Hj; [|done].
  pose proof (posts_bound st HI) as [Hpnd Hplen].
  pose proof HI as [(consumed & Hseq & Hposts) Hfl Hnd Hap Hab Hfo Hdj Hct Hsn].
  specialize (Hfo Hfail). specialize (Hdj Hfail).
  specialize (Hct Hfail). specialize (Hsn Hfail).
  assert (Hjc : completes (acc st) !! j = None).
  { destruct (completes (acc st) !! j) eqn:E; [|done].
    destruct (Hfo j) as [_ ?]; [left; eauto|done]. }
  assert (Hje : errors (acc st) !! j = None).
  { destruct (errors (acc st) !! j) eqn:E; [|done].
    destruct (Hfo j) as [_ ?]; [right; eauto|done]. }
  pose proof (length_filter_remove (active st) j Hnd Hj) as Hrem.
  assert (Hjb : j ∉ buffer st).
  { apply (consumed_fresh consumed (buffer st) j Hseq).
    apply Hap in Hj. rewrite Hposts in Hj. by apply list_elem_of_filter in Hj as [_ ?]. }
  assert (Hflags : forall i : nat, i ∈ buffer st ->
    (i ∈ (if ok then {[j]} ∪ flags st else flags st)
     <-> completed_init rev fileMeta i = true)).
  { intros i Hi. rewrite <- (Hfl i Hi). destruct ok; [|done].
    assert (i <> j) by (intros ->; done). set_solver. }
  assert (Hact : forall i : nat, i ∈ filter (λ i, i ≠ j) (active st) -> i ∈ posts st).
  { intros i [_ Hi]%list_elem_of_filter. by apply Hap. }
  assert (Hbnd : (length (filter (λ i, i ≠ j) (active st)) <= 3)%nat) by lia.
  unfold scanChunk.
  destruct (errors_trip rev chunksLength
              (size (errors (record_status (acc st) {| index := j; completed := ok |}))))
    eqn:Htrip.
  { constructor; simpl; try done.
    - by exists consumed.
    - by apply NoDup_filter. }
  assert (Hrec : DispatchInv rev chunksLength fileMeta
    (single_next chunksLength
       {| flags := (if ok then {[j]} ∪ flags st else flags st); buffer := buffer st;
          active := filter (λ i, i ≠ j) (active st); posts := posts st;
          acc := record_status (acc st) {| index := j; completed := ok |};
          hasValue := true; seenValue := seenValue st; seen := seen st;
          failure := None |}) /\
    failure (single_next chunksLength
       {| flags := (if ok then {[j]} ∪ flags st else flags st); buffer := buffer st;
          active := filter (λ i, i ≠ j) (active st); posts := posts st;
          acc := record_status (acc st) {| index := j; completed := ok |};
          hasValue := true; seenValue := seenValue st; seen := seen st;
          failure := None |}) = None).
  { assert (Hseen : seenValue st = false).
    { destruct (seenValue st); [|done]. specialize (Hsn eq_refl). lia. }
    unfold single_next. cbn [seenValue acc failure flags buffer active posts hasValue seen].
    rewrite Hseen, andb_false_r, orb_false_l. split; [|done].
    unfold record_status. cbn [completed index].
    constructor; cbn [seenValue acc failure flags buffer active posts hasValue seen];
      try done.
    - by exists consumed.
    - by apply NoDup_filter.
    - intros _ i Hi.
      assert (i = j \/ (i <> j /\ (is_Some (completes (acc st) !! i)
                                    \/ is_Some (errors (acc st) !! i)))) as [->|[Hne Hi']].
      { destruct (decide (i = j)) as [|Hne]; [by left|right; split; [done|]].
        destruct ok; cbn [completes errors] in Hi;
          rewrite lookup_insert_ne in Hi by done; tauto. }
      + split; [by apply Hap|]. rewrite list_elem_of_filter. tauto.
      + destruct (Hfo i Hi') as [? ?]. split; [done|].
        rewrite list_elem_of_filter. tauto.
    - intros _ i. destruct ok; cbn [completes errors].
      + destruct (decide (i = j)) as [->|Hne]; [done|].
        rewrite lookup_insert_ne by done. apply Hdj.
      + intros Hi. destruct (decide (i = j)) as [->|Hne].
        * rewrite Hjc in Hi. by destruct Hi.
        * rewrite lookup_insert_ne by done. by apply Hdj.
    - intros _. destruct ok; cbn [completes errors];
        rewrite map_size_insert_None by done; lia.
    - intros _ Hm. unfold all_complete in Hm. by apply bool_decide_eq_true in Hm. }
  destruct Hrec as [Hrec Hnone]. rewrite Hnone. by apply DispatchInv_fill.
Qed.

Lemma mergeAll_fill_keeps (st : Dispatch) :
  acc (mergeAll_fill st) = acc st /\ failure (mergeAll_fill st) = failure st /\
  seenValue (mergeAll_fill st) = seenValue st.
Proof.
  unfold mergeAll_fill.
  by destruct (subscribeBuffered (flags st) (buffer st) (active st) (posts st)) as [[b a] p].
Qed.

Lemma respond_idle (st : Dispatch) (j : nat) (ok : bool) :
  j ∉ active st -> respond rev chunksLength st (j, ok) = st.
Proof.
  intros Hj. unfold respond. destruct (failure st); [done|].
  by rewrite bool_decide_eq_false_2.
Qed.

Lemma respond_stopped (st : Dispatch) (answer : nat * bool) :
  failure st <> None -> respond rev chunksLength st answer = st.
Proof. intros Hf. unfold respond. destruct answer, (failure st); done. Qed.

(** An answer for a chunk in flight: the status is recorded, and the
    subscription fails exactly when [mergeScan]'s accumulator function
    throws. *)
Lemma respond_active (st : Dispatch) (j : nat) (ok : bool) :
  Inv st -> failure st = None -> j ∈ active st ->
  let x := {| index := j; completed := ok |} in
  let st' := respond rev chunksLength st (j, ok) in
  acc st' = scan_object (scanChunk rev chunksLength (acc st) x) /\
  failure st' =
    (if scan_throws (scanChunk rev chunksLength (acc st) x)
     then Some Multiple_Chunk_Upload_Error else None) /\
  completes (acc st) !! j = None /\ errors (acc st) !! j = None.
Proof.
  intros HI Hfail Hj x st'. subst x st'.
  pose proof (posts_bound st HI) as [_ Hplen].
  pose proof HI as [_ _ Hnd _ _ Hfo _ Hct Hsn].
  specialize (Hfo Hfail). specialize (Hct Hfail). specialize (Hsn Hfail).
  assert (Hjc : completes (acc st) !! j = None).
  { destruct (completes (acc st) !! j) eqn:E; [|done].
    destruct (Hfo j) as [_ ?]; [left; eauto|done]. }
  assert (Hje : errors (acc st) !! j = None).
  { destruct (errors (acc st) !! j) eqn:E; [|done].
    destruct (Hfo j) as [_ ?]; [right; eauto|done]. }
  pose proof (length_filter_remove (active st) j Hnd Hj) as Hrem.
  assert (Hseen : seenValue st = false).
  { destruct (seenValue st); [|done]. specialize (Hsn eq_refl). lia. }
  unfold respond. rewrite Hfail, bool_decide_eq_true_2 by done.
  destruct (scanChunk rev chunksLength (acc st) {| index := j; completed := ok |})
    as [acc'|acc'] eqn:Hscan; cbn [scan_object scan_throws].
  - set (st1 := single_next chunksLength _).
    assert (Hst1 : failure st1 = None /\ acc st1 = acc').
    { subst st1. unfold single_next. cbn [failure seenValue acc].
      by rewrite Hseen, andb_false_r. }
    destruct Hst1 as [Hf1 Ha1]. rewrite Hf1.
    destruct (mergeAll_fill_keeps st1) as (-> & -> & _). by rewrite Hf1, Ha1.
  - done.
Qed.

Lemma record_failed_size (a : ChunkScan) (j : nat) (ok : bool) :
  errors a !! j = None ->
  size (errors (record_status a {| index := j; completed := ok |})) =
  (size (errors a) + (if ok then 0 else 1))%nat.
Proof.
  intros Hj. unfold record_status. destruct ok; cbn [completed index errors]; [lia|].
  rewrite map_size_insert_None by done. lia.
Qed.

Lemma DispatchInv_run (answers : list (nat * bool)) (st : Dispatch) :
  Inv st -> Inv (run rev chunksLength st answers).
Proof.
  revert st. induction answers as [|a answers IH]; intros st HI; [done|].
  apply IH. by apply DispatchInv_respond.
Qed.

Lemma initial_flags_spec (i : nat) :
  i ∈ seq 0 chunksLength ->
  (i ∈ initial_flags rev chunksLength fileMeta <-> completed_init rev fileMeta i = true).
Proof.
  intros Hi. unfold initial_flags. rewrite elem_of_list_to_set, list_elem_of_filter. tauto.
Qed.

Lemma DispatchInv_subscribe :
  Inv (subscribe chunksLength (initial_flags rev chunksLength fileMeta) seed).
Proof.
  apply DispatchInv_fill. constructor; simpl.
  - by exists [].
  - apply initial_flags_spec.
  - apply NoDup_nil_2.
  - intros i Hi. by apply elem_of_nil in Hi.
  - lia.
  - intros _ i [[? Hi]|[? Hi]]; by rewrite lookup_empty in Hi.
  - intros _ i [? Hi]. by rewrite lookup_empty in Hi.
  - done.
  - done.
Qed.
End DispatchInvariant.

Lemma uploadAllChunks_inv (rev : Revision) (chunks : list Blob) (fileMeta : FileMeta)
    (answers : list (nat * bool)) :
  DispatchInv rev (length chunks) fileMeta (uploadAllChunks rev chunks fileMeta answers).
Proof. apply DispatchInv_run, DispatchInv_subscribe. Qed.

Lemma scanChunk_RevA_throws (n : nat) (a : ChunkScan) (x : ChunkStatus) :
  scan_throws (scanChunk RevA n a x) = true <->
  (threshold n <= size (errors (record_status a x)))%nat.
Proof.
  unfold scanChunk, errors_trip.
  destruct (Nat.leb_spec (threshold n) (size (errors (record_status a x))));
    cbn [scan_throws]; split; (done || lia).
Qed.

Lemma scanChunk_object (rev : Revision) (n : nat) (a : ChunkScan) (x : ChunkStatus) :
  scan_throws (scanChunk rev n a x) = false ->
  scan_object (scanChunk rev n a x) = record_status a x.
Proof. unfold scanChunk. by destruct (errors_trip _ _ _). Qed.

(** Revision B trips on the first failed chunk, whatever the chunk count. *)
Lemma scanChunk_RevB_failed (n : nat) (a : ChunkScan) (i : nat) :
  scan_throws (scanChunk RevB n a (failed i)) = true.
Proof.
  unfold scanChunk, errors_trip, record_status, failed. cbn [completed index errors].
  destruct (Nat.eqb_spec (size (<[i:=true]> (errors a))) 0) as [Hz|]; [|done].
  apply map_size_empty_inv in Hz. by apply insert_non_empty in Hz.
Qed.

Lemma filter_failing_cons (j : nat) (ok : bool) (answers : list (nat * bool)) :
  length (filter failing ((j, ok) :: answers)) =
  ((if ok then 0 else 1) + length (filter failing answers))%nat.
Proof.
  destruct ok.
  - by rewrite filter_cons_False by (unfold failing; simpl; congruence).
  - by rewrite filter_cons_True by done.
Qed.

(** In revision A a subscription raises nothing as long as the failed
    chunks recorded so far, together with the failures still to arrive, stay
    below the threshold. *)
Lemma run_RevA_tolerates (n : nat) (fileMeta : FileMeta) (answers : list (nat * bool)) :
  forall st : Dispatch,
    DispatchInv RevA n fileMeta st -> failure st = None ->
    (size (errors (acc st)) + length (filter failing answers) < threshold n)%nat ->
    failure (run RevA n st answers) = None.
Proof.
  induction answers as [|[j ok] answers IH]; intros st HI Hf Hlt; [done|].
  rewrite filter_failing_cons in Hlt. cbn [run foldl]. fold (run RevA n).
  destruct (decide (j ∈ active st)) as [Hj|Hj].
  - destruct (respond_active RevA n fileMeta st j ok HI Hf Hj) as (Hacc & Hfail & _ & Hje).
    pose proof (record_failed_size (acc st) j ok Hje) as Hsize.
    assert (Hno : scan_throws (scanChunk RevA n (acc st) {| index := j; completed := ok |})
                  = false).
    { apply not_true_is_false. rewrite scanChunk_RevA_throws. lia. }
    rewrite Hno in Hfail. rewrite scanChunk_object in Hacc by done.
    apply IH; [by apply DispatchInv_respond|done|]. rewrite Hacc. lia.
  - rewrite respond_idle by done. apply IH; [done..|lia].
Qed.

Lemma run_idle (rev : Revision) (n : nat) (answers : list (nat * bool)) (st : Dispatch) :
  active st = [] -> run rev n st answers = st.
Proof.
  intros Ha. induction answers as [|[j ok] answers IH]; [done|].
  cbn [run foldl]. rewrite respond_idle; [exact IH|]. rewrite Ha. apply not_elem_of_nil.
Qed.

Lemma seed_tolerated (rev : Revision) (n : nat) (fileMeta : FileMeta) :
  failure (subscribe n (initial_flags rev n fileMeta) seed) = None /\
  acc (subscribe n (initial_flags rev n fileMeta) seed) = seed.
Proof.
  unfold subscribe.
  destruct (mergeAll_fill_keeps
    {| flags := initial_flags rev n fileMeta; buffer := seq 0 n; active := [];
       posts := []; acc := seed; hasValue := false; seenValue := false; seen := 0%nat;
       failure := None |}) as (-> & -> & _). done.
Qed.

Lemma settled_spec (st : Dispatch) :
  settled st = true <-> active st = [] /\ buffer st = [].
Proof.
  unfold settled. rewrite andb_true_iff, !bool_decide_eq_true. done.
Qed.

(** Once every request is answered, the POST log is the whole index
    sequence without the chunks that were completed beforehand. *)
Lemma settled_posts (rev : Revision) (n : nat) (fileMeta : FileMeta) (st : Dispatch) :
  DispatchInv rev n fileMeta st -> settled st = true ->
  posts st = filter (dispatched rev fileMeta) (seq 0 n).
Proof.
  intros [(consumed & Hseq & Hposts) _ _ _ _ _ _ _ _] [_ Hb]%settled_spec.
  rewrite Hb, app_nil_r in Hseq. by rewrite Hseq.
Qed.

Lemma settled_count (rev : Revision) (n : nat) (fileMeta : FileMeta) (st : Dispatch) :
  DispatchInv rev n fileMeta st -> settled st = true -> failure st = None ->
  (size (completes (acc st)) + size (errors (acc st)) = length (posts st))%nat.
Proof.
  intros HI [Ha _]%settled_spec Hf. pose proof (inv_count _ _ _ _ HI Hf) as Hct.
  rewrite Ha in Hct. simpl in Hct. lia.
Qed.

Lemma dispatched_RevA (fileMeta : FileMeta) (i : nat) :
  dispatched RevA fileMeta i <-> i ∉ uploadedChunks fileMeta.
Proof.
  unfold dispatched, completed_init. by rewrite bool_decide_eq_false.
Qed.

Lemma length_filter_not_uploaded (uploaded : list nat) (n : nat) :
  Forall (λ i, (i < n)%nat) uploaded ->
  length (filter (λ i, i ∉ uploaded) (seq 0 n)) =
  (n - size (list_to_set uploaded : gset nat))%nat.
Proof.
  intros Hin. rewrite Forall_forall in Hin.
  pose proof (filter_app_complement (λ i, i ∈ uploaded) (seq 0 n)) as Hperm.
  apply Permutation_length in Hperm. rewrite length_app, length_seq in Hperm.
  assert (Hsize : length (filter (λ i, i ∈ uploaded) (seq 0 n)) =
                  size (list_to_set uploaded : gset nat)).
  { rewrite <- (size_list_to_set (C:=gset nat)) by apply NoDup_filter, NoDup_seq.
    f_equal. apply set_eq. intros x.
    rewrite !elem_of_list_to_set, list_elem_of_filter, elem_of_seq.
    split; [tauto|]. intros Hx. specialize (Hin x Hx). split; [done|simpl; lia]. }
  lia.
Qed.

(** In revision A a resumed upload never reaches the success condition:
    with an uploaded index in range, no state of a run that has not failed
    satisfies the predicate handed to [single]. *)
Lemma RevA_resumed_never_complete (chunks : list Blob) (fileMeta : FileMeta)
    (answers : list (nat * bool)) (i : nat) :
  i ∈ uploadedChunks fileMeta -> (i < length chunks)%nat ->
  failure (uploadAllChunks RevA chunks fileMeta answers) = None ->
  all_complete (length chunks) (acc (uploadAllChunks RevA chunks fileMeta answers)) = false.
Proof.
  intros Hi Hlt Hf.
  pose proof (uploadAllChunks_inv RevA chunks fileMeta answers) as HI.
  pose proof (inv_count _ _ _ _ HI Hf) as Hct.
  destruct (inv_consumed _ _ _ _ HI) as (consumed & Hseq & Hposts).
  assert (Hshort : (length (filter (dispatched RevA fileMeta) (seq 0 (length chunks)))
                    < length chunks)%nat).
  { pose proof (length_filter_lt (dispatched RevA fileMeta) (seq 0 (length chunks)) i)
      as Hlen. rewrite length_seq in Hlen. apply Hlen; [apply elem_of_seq; lia|].
    by intros Hd%dispatched_RevA. }
  rewrite Hseq, filter_app, length_app, <- Hposts in Hshort.
  unfold all_complete. apply bool_decide_eq_false. lia.
Qed.

(** Revision B starts every [completed] flag at [false]: a settled run has
    POSTed every chunk, whatever [uploadedChunks] says. *)
Lemma RevB_posts_every_chunk (chunks : list Blob) (fileMeta : FileMeta)
    (answers : list (nat * bool)) :
  settled (uploadAllChunks RevB chunks fileMeta answers) = true ->
  posts (uploadAllChunks RevB chunks fileMeta answers) = seq 0 (length chunks).
Proof.
  intros Hs. rewrite (settled_posts _ _ _ _ (uploadAllChunks_inv _ _ _ _) Hs).
  induction (seq 0 (length chunks)) as [|i l IH]; [done|].
  by rewrite filter_cons_True, IH.
Qed.

(** ** Session opener *)

Lemma opener_replays (fileMeta : FileMeta) (k : nat) (o : Opener) :
  cache o = Some fileMeta ->
  foldl opener_step o (repeat Subscribe k) =
  {| cache := cache o; startPosts := startPosts o; awaiting := awaiting o;
     delivered := delivered o ++ repeat fileMeta k |}.
Proof.
  revert o. induction k as [|k IH]; intros o Hc.
  - simpl. rewrite app_nil_r. by destruct o.
  - cbn [repeat foldl]. rewrite IH.
    + unfold opener_step, startChunkUpload_defer. rewrite Hc. cbn.
      by rewrite <- app_assoc.
    + unfold opener_step, startChunkUpload_defer. by rewrite Hc.
Qed.

(** Subscribers that never overlap cause at most one session-open POST,
    and exactly one once a reply is cached. *)
Lemma sequential_opens_once (events : list OpenerEvent) :
  forall o : Opener,
    (cache o = None /\ startPosts o = awaiting o /\ (awaiting o <= 1)%nat) \/
    (cache o <> None /\ startPosts o = 1%nat /\ awaiting o = 0%nat) ->
    sequential o events = true ->
    (startPosts (foldl opener_step o events) <= 1)%nat /\
    (cache (foldl opener_step o events) <> None ->
     startPosts (foldl opener_step o events) = 1%nat).
Proof.
  induction events as [|e rest IH]; intros o Ho Hseq.
  - cbn [foldl]. destruct Ho as [(Hc & Hp & Ha)|(Hc & Hp & Ha)]; split; (done || lia).
  - cbn [sequential] in Hseq. apply andb_true_iff in Hseq as [He Hrest].
    cbn [foldl]. apply IH; [|done]. clear IH Hrest.
    destruct e as [|fileMeta]; unfold opener_step, startChunkUpload_defer.
    + apply Nat.eqb_eq in He.
      destruct Ho as [(Hc & Hp & Ha)|(Hc & Hp & Ha)].
      * rewrite Hc. left. cbn. split; [done|]. split; lia.
      * destruct (cache o) eqn:Hco; [|done]. right. cbn. done.
    + destruct (awaiting o) as [|n] eqn:Haw; [by rewrite Haw|].
      right. cbn. destruct Ho as [(Hc & Hp & Ha)|(Hc & Hp & Ha)]; [|lia].
      split; [done|]. split; lia.
Qed.

(** Two subscriptions made before the first reply each issue a POST; the
    engine's stages never overlap in this way. *)
Lemma overlapping_subscriptions (fileMeta : FileMeta) :
  startPosts (opener_run [Subscribe; Subscribe; Reply fileMeta; Reply fileMeta]) = 2%nat.
Proof. reflexivity. Qed.

(** ** Progress stage *)

Lemma distinctUntilChanged_step (k v : Q) (rest : list Q) :
  distinctUntilChanged greater (Some k) (v :: rest) =
  if Qlt_le_dec v k then distinctUntilChanged greater (Some k) rest
  else v :: distinctUntilChanged greater (Some v) rest.
Proof.
  cbn [distinctUntilChanged]. unfold greater.
  destruct (Qlt_le_dec v k) as [Hlt|Hle].
  - destruct (Qle_bool k v) eqn:Hb; [|done].
    apply Qle_bool_iff in Hb. by apply Qlt_not_le in Hlt.
  - apply Qle_bool_iff in Hle. by rewrite Hle.
Qed.

Lemma distinctUntilChanged_sorted (values : list Q) :
  forall key : option Q,
    StronglySorted Qle (distinctUntilChanged greater key values) /\
    (forall k : Q, key = Some k ->
       Forall (Qle k) (distinctUntilChanged greater key values)).
Proof.
  induction values as [|v rest IH]; intros key.
  - split; [constructor|]. intros k _. constructor.
  - destruct key as [k|].
    + rewrite distinctUntilChanged_step. destruct (Qlt_le_dec v k) as [Hlt|Hle].
      * apply IH.
      * destruct (IH (Some v)) as [Hs Hb]. specialize (Hb v eq_refl). split.
        -- by constructor.
        -- intros k' [= <-]. constructor; [done|].
           eapply Forall_impl; [exact Hb|]. intros x Hx. by apply Qle_trans with v.
    + cbn [distinctUntilChanged]. destruct (IH (Some v)) as [Hs Hb]. split.
      * constructor; [done|]. by apply Hb.
      * intros k [=].
Qed.

Lemma distinctUntilChanged_elem {A : Type} (compare : A -> A -> bool) (values : list A) :
  forall (key : option A) (v : A),
    v ∈ distinctUntilChanged compare key values -> v ∈ values.
Proof.
  induction values as [|x rest IH]; intros key v Hv; [done|].
  cbn [distinctUntilChanged] in Hv. destruct key as [k|].
  - destruct (compare k x).
    + right. by eapply IH.
    + apply elem_of_cons in Hv as [->|Hv]; [left|right; by eapply IH].
  - apply elem_of_cons in Hv as [->|Hv]; [left|right; by eapply IH].
Qed.

Lemma scan_states_prefix (events : list ChunkProgress) :
  forall (acc0 acc : gmap nat Z),
    acc ∈ scan_states acc0 events ->
    exists pre : list ChunkProgress,
      pre `prefix_of` events /\ acc = foldl scanProgress acc0 pre.
Proof.
  induction events as [|cp rest IH]; intros acc0 acc Hacc.
  - by apply elem_of_nil in Hacc.
  - cbn [scan_states] in Hacc. apply elem_of_cons in Hacc as [->|Hacc].
    + exists [cp]. split; [by apply prefix_cons, prefix_nil|done].
    + destruct (IH _ _ Hacc) as (pre & Hpre & ->). exists (cp :: pre).
      split; [by apply prefix_cons|done].
Qed.

Lemma scan_latest (events : list ChunkProgress) (i : nat) :
  foldl scanProgress ∅ events !! i = latest_loaded i events.
Proof.
  unfold latest_loaded. induction events as [|cp events IH] using rev_ind.
  - simpl. by rewrite lookup_empty.
  - rewrite foldl_app, filter_app. cbn [foldl]. unfold scanProgress at 1.
    destruct (decide (cp_index cp = i)) as [Heq|Hne].
    + rewrite filter_cons_True, filter_nil by done. rewrite last_snoc. cbn.
      rewrite <- Heq. apply lookup_insert_eq.
    + rewrite filter_cons_False, filter_nil, app_nil_r by done.
      by rewrite lookup_insert_ne.
Qed.

Lemma scan_nonneg (events : list ChunkProgress) :
  Forall (λ cp, 0 <= loaded cp) events ->
  map_Forall (λ _ bytes, 0 <= bytes) (foldl scanProgress ∅ events).
Proof.
  induction events as [|cp events IH] using rev_ind; intros Hall.
  - simpl. apply map_Forall_empty.
  - apply Forall_app in Hall as [Hall Hcp]. rewrite foldl_app. cbn [foldl].
    unfold scanProgress at 1. apply map_Forall_insert_2; [|by apply IH].
    by apply (Forall_singleton (λ cp, 0 <= loaded cp)) in Hcp.
Qed.

Lemma totalLoaded_nonneg (acc : gmap nat Z) :
  map_Forall (λ _ bytes, 0 <= bytes) acc -> 0 <= totalLoaded acc.
Proof.
  unfold totalLoaded.
  apply (map_fold_weak_ind
    (λ t m, map_Forall (λ _ bytes, 0 <= bytes) m -> 0 <= t)); [done|].
  intros i x m r Hi IH Hall.
  apply map_Forall_insert in Hall as [Hx Hall]; [|done]. specialize (IH Hall). lia.
Qed.

Lemma progressOf_bounds (fileMeta : FileMeta) (acc : gmap nat Z) :
  0 < fileSize fileMeta ->
  (0 <= totalLoaded acc -> (0 <= progressOf fileMeta acc)%Q) /\
  (totalLoaded acc <= fileSize fileMeta -> (progressOf fileMeta acc <= 1)%Q).
Proof.
  intros Hpos. unfold progressOf.
  destruct (fileSize fileMeta) as [|p|p]; [lia| |lia].
  unfold Qle, Qdiv, Qmult, Qinv, inject_Z. cbn. split; intros H; nia.
Qed.

(** ** Control plane *)

Lemma teardown_closes (name : SubjectName) (eng eng' : Engine) :
  teardown name eng = Ok eng' ->
  closed (subjects eng name) = false /\
  forall n : SubjectName,
    closed (subjects eng' n) = if decide (name = n) then true else closed (subjects eng n).
Proof.
  unfold teardown, Subject_complete. destruct (closed (subjects eng name)) eqn:Hc; [done|].
  cbn [and_then]. intros [= <-]. split; [done|]. intros n.
  unfold Subject_unsubscribe, with_subject, with_stopped. cbn [subjects].
  unfold insert, fn_insert. by destruct (decide (name = n)).
Qed.

Lemma teardown_all_closes (names : list SubjectName) :
  forall eng eng' : Engine,
    teardown_all names eng = Ok eng' ->
    forall n : SubjectName,
      closed (subjects eng n) = true \/ n ∈ names -> closed (subjects eng' n) = true.
Proof.
  induction names as [|name rest IH]; intros eng eng' Hrun n Hn.
  - injection Hrun as <-. destruct Hn as [?|Hn]; [done|]. by apply elem_of_nil in Hn.
  - cbn [teardown_all] in Hrun. destruct (teardown name eng) as [eng1|] eqn:Ht; [|done].
    cbn [and_then] in Hrun. destruct (teardown_closes _ _ _ Ht) as [_ Hcl].
    apply (IH eng1 eng' Hrun). rewrite Hcl.
    destruct (decide (name = n)) as [|Hne]; [by left|].
    destruct Hn as [?|[?|?]%elem_of_cons]; [by left|congruence|by right].
Qed.

Lemma cleanUp_closes (eng eng' : Engine) (n : SubjectName) :
  cleanUp eng = Ok eng' -> closed (subjects eng' n) = true.
Proof.
  intros Hrun. apply (teardown_all_closes _ _ _ Hrun). right.
  destruct n; set_solver.
Qed.

(** Before teardown the methods do reach the pipeline. *)
Lemma pause_reaches_pipeline (fileMeta : FileMeta) :
  inbox (result_engine (call call_pause (uploading fileMeta))) =
  repeat (controlSubject, VBool true) 3.
Proof. vm_compute. reflexivity. Qed.

Lemma teardown_open (name : SubjectName) (eng : Engine) :
  closed (subjects eng name) = false ->
  exists eng' : Engine,
    teardown name eng = Ok eng' /\
    output eng' = output eng /\
    upstreamDone eng' = upstreamDone eng /\
    upstreamFailed eng' = upstreamFailed eng /\
    stopped eng' = stopped eng ++ observers (subjects eng name) /\
    forall n : SubjectName, n ≠ name -> subjects eng' n = subjects eng n.
Proof.
  intros Hopen. unfold teardown, Subject_complete. rewrite Hopen. cbn [and_then].
  eexists. split; [reflexivity|]. cbn. do 4 (split; [reflexivity|]).
  intros n Hn. by rewrite !fn_lookup_insert_ne.
Qed.

Lemma teardown_all_open (names : list SubjectName) :
  forall eng : Engine,
    NoDup names ->
    (forall n : SubjectName, n ∈ names -> closed (subjects eng n) = false) ->
    exists eng' : Engine,
      teardown_all names eng = Ok eng' /\
      output eng' = output eng /\
      upstreamDone eng' = upstreamDone eng /\
      upstreamFailed eng' = upstreamFailed eng /\
      (forall o : Observer, o ∈ stopped eng -> o ∈ stopped eng') /\
      (forall (n : SubjectName) (o : Observer),
         n ∈ names -> o ∈ observers (subjects eng n) -> o ∈ stopped eng').
Proof.
  induction names as [|name rest IH]; intros eng Hnd Hopen.
  - exists eng. repeat split; try done. intros n o Hn. by apply elem_of_nil in Hn.
  - apply NoDup_cons in Hnd as [Hname Hnd].
    destruct (teardown_open name eng) as (eng1 & Ht & Ho1 & Hd1 & Hf1 & Hs1 & Hsame).
    { apply Hopen. by left. }
    destruct (IH eng1 Hnd) as (eng' & Hrun & Ho & Hd & Hf & Hs & Hobs).
    { intros n Hn. rewrite Hsame by (intros ->; done). apply Hopen. by right. }
    exists eng'. cbn [teardown_all]. rewrite Ht. cbn [and_then].
    split; [done|]. split; [congruence|]. split; [congruence|]. split; [congruence|].
    split.
    + intros o Hin. apply Hs. rewrite Hs1. set_solver.
    + intros n o [->|Hn]%elem_of_cons Hin.
      * apply Hs. rewrite Hs1. set_solver.
      * apply (Hobs n o Hn). rewrite Hsame by (intros ->; done). done.
Qed.

(** On an engine none of whose subjects is closed, [cleanUp] returns; it
    emits nothing and stops every observer of every subject. *)
Lemma cleanUp_open (eng : Engine) :
  (forall name : SubjectName, closed (subjects eng name) = false) ->
  exists eng' : Engine,
    cleanUp eng = Ok eng' /\
    output eng' = output eng /\
    upstreamDone eng' = upstreamDone eng /\
    upstreamFailed eng' = upstreamFailed eng /\
    forall (name : SubjectName) (o : Observer),
      o ∈ observers (subjects eng name) -> o ∈ stopped eng'.
Proof.
  intros Hopen.
  destruct (teardown_all_open
    [retrySubject; abortSubject; controlSubject; progressSubject; startSubject;
     errorSubject] eng) as (eng' & Hrun & Ho & Hd & Hf & _ & Hobs).
  { repeat (apply NoDup_cons; split; [set_solver|]). apply NoDup_nil_2. }
  { intros n _. apply Hopen. }
  exists eng'. do 4 (split; [done|]). intros name o. apply Hobs.
  destruct name; set_solver.
Qed.

(** Whatever the inner pipeline is doing: when [takeUntil] is the first
    observer of the abort subject and the flag-cleanup branch the second,
    [abort()] returns, emits nothing and leaves the output completed. *)
Lemma abort_silences_flags (eng : Engine) :
  (forall name : SubjectName, closed (subjects eng name) = false) ->
  isStopped (subjects eng abortSubject) = false ->
  observers (subjects eng abortSubject) = [AbortNotifier; AbortFlags] ->
  AbortNotifier ∉ stopped eng ->
  RetryFlags ∈ observers (subjects eng retrySubject) ->
  ErrorEvents ∈ observers (subjects eng errorSubject) ->
  throws (abort eng) = false /\
  output (result_engine (abort eng)) = output eng /\
  output_completed (result_engine (abort eng)) = true.
Proof.
  intros Hopen Hlive Hobs Hfirst Hretry Herror.
  destruct (cleanUp_open (with_stopped (stopped eng ++ [AbortNotifier]) eng) Hopen)
    as (eng' & Hclean & Hout & _ & Hfailed & Hstopped).
  assert (Hflags : AbortFlags ∈ stopped eng').
  { apply (Hstopped abortSubject). cbn. rewrite Hobs. set_solver. }
  assert (Hfirst' : Observer_next VUnit eng AbortNotifier =
    {| subjects := subjects eng'; startEvents := startEvents eng';
       stopped := stopped eng'; inbox := inbox eng'; upstreamDone := true;
       upstreamFailed := upstreamFailed eng'; output := output eng' |}).
  { unfold Observer_next. rewrite bool_decide_eq_false_2 by done. by rewrite Hclean. }
  unfold abort, Subject_next. rewrite Hopen, Hlive, Hobs.
  cbn [negb foldl throws result_engine]. rewrite Hfirst'.
  unfold Observer_next. cbn [stopped]. rewrite bool_decide_eq_true_2 by done.
  split; [done|]. split; [done|].
  unfold output_completed. cbn [upstreamDone stopped].
  rewrite !bool_decide_eq_true_2; [done|done|..].
  - by apply (Hstopped retrySubject).
  - by apply (Hstopped errorSubject).
Qed.

(** Revision A has no guard: after its [cleanUp], [pause()] throws. *)
Lemma pause_A_after_cleanUp_throws (eng : Engine) :
  throws (pause_A (cleanUp_A eng)) = true.
Proof. reflexivity. Qed.

(* ================================================================== *)
(** * The claims *)
(* ================================================================== *)

(** C1 (revision A, at the failing input).  Resuming a five-chunk upload
    whose chunks 0, 2 and 4 are already on the server, with both remaining
    POSTs succeeding: the accumulator starts from the empty seed, not from
    [uploadedChunks]; when every request has been answered only the two
    uploaded indices are in [completes], so [|completes| = chunks] is not
    reached. *)
Theorem resumed_run_never_all_complete :
  let st := uploadAllChunks RevA chunks5 (meta5 [0; 2; 4]%nat)
              [(1, true); (3, true)]%nat in
  completes seed = ∅ /\
  posts st = [1; 3]%nat /\
  settled st = true /\ failure st = None /\
  dom (completes (acc st)) = ({[1; 3]}%nat : gset nat) /\
  size (completes (acc st)) = 2%nat /\
  all_complete (length chunks5) (acc st) = false.
Proof. vm_compute. repeat split; try done. Qed.

(** C2 (revision A).  After each fold of a [ChunkStatus] the accumulator
    function throws [Multiple_Chunk_Upload_Error] exactly when the number of
    distinct failed indices has reached the threshold, and it has then
    emptied [errors]; the threshold is 3 for more than 3 chunks and 1
    otherwise.  So with more than 3 chunks two failed chunks do not raise the
    error and a third does, and with at most 3 chunks the first failure
    does. *)
Theorem multiple_error_threshold (chunks : list Blob) (fileMeta : FileMeta)
    (answers : list (nat * bool)) (j : nat) (ok : bool)
    (a : ChunkScan) (i1 i2 i3 : nat) :
  let n := length chunks in
  let st := uploadAllChunks RevA chunks fileMeta answers in
  let x := {| index := j; completed := ok |} in
  (failure st = None -> j ∈ active st ->
     (failure (respond RevA n st (j, ok)) = Some Multiple_Chunk_Upload_Error <->
      (threshold n <= size (errors (record_status (acc st) x)))%nat) /\
     (failure (respond RevA n st (j, ok)) = Some Multiple_Chunk_Upload_Error ->
      errors (acc (respond RevA n st (j, ok))) = ∅) /\
     (failure (respond RevA n st (j, ok)) = None ->
      acc (respond RevA n st (j, ok)) = record_status (acc st) x)) /\
  ((3 < n)%nat -> threshold n = 3%nat) /\
  ((n <= 3)%nat -> threshold n = 1%nat) /\
  ((3 < n)%nat -> errors a = ∅ -> i1 ≠ i2 -> i1 ≠ i3 -> i2 ≠ i3 ->
     exists a1 a2 a3 : ChunkScan,
       scanChunk RevA n a (failed i1) = ScanOf a1 /\
       scanChunk RevA n a1 (failed i2) = ScanOf a2 /\
       scanChunk RevA n a2 (failed i3) = ScanThrow a3 /\
       errors a3 = ∅) /\
  ((n <= 3)%nat -> errors a = ∅ ->
     scan_throws (scanChunk RevA n a (failed i1)) = true).
Proof.
  intros n st x.
  assert (Hbig : (3 < n)%nat -> threshold n = 3%nat).
  { intros Hn. unfold threshold. by destruct (Nat.ltb_spec 3 n); [|lia]. }
  assert (Hsmall : (n <= 3)%nat -> threshold n = 1%nat).
  { intros Hn. unfold threshold. by destruct (Nat.ltb_spec 3 n); [lia|]. }
  split; [|split; [done|split; [done|split]]].
  - intros Hf Hj.
    pose proof (uploadAllChunks_inv RevA chunks fileMeta answers) as HI.
    destruct (respond_active RevA n fileMeta st j ok HI Hf Hj) as (Hacc & Hfail & _).
    fold x in Hacc, Hfail. rewrite Hacc, Hfail.
    pose proof (scanChunk_RevA_throws n (acc st) x) as Hiff.
    destruct (scan_throws (scanChunk RevA n (acc st) x)) eqn:Ht.
    + split; [tauto|]. split; [|done]. intros _.
      unfold scanChunk in *. by destruct (errors_trip _ _ _).
    + split; [split; [done|]; intros Hle; apply Hiff in Hle; done|].
      split; [done|]. intros _. by apply scanChunk_object.
  - intros Hn Hempty H12 H13 H23.
    assert (H1 : size (<[i1:=true]> (∅ : gmap nat bool)) = 1%nat).
    { by rewrite map_size_insert_None, map_size_empty by apply lookup_empty. }
    assert (H2 : size (<[i2:=true]> (<[i1:=true]> (∅ : gmap nat bool))) = 2%nat).
    { rewrite map_size_insert_None, H1; [done|].
      by rewrite lookup_insert_ne, lookup_empty. }
    assert (H3 : size (<[i3:=true]> (<[i2:=true]> (<[i1:=true]> (∅ : gmap nat bool))))
                 = 3%nat).
    { rewrite map_size_insert_None, H2; [done|].
      by rewrite !lookup_insert_ne, lookup_empty. }
    unfold scanChunk, errors_trip, record_status, failed.
    cbn [completed index errors completes]. rewrite (Hbig Hn), Hempty, H1.
    eexists _, _, _. split; [reflexivity|]. cbn [errors completes]. rewrite H2.
    split; [reflexivity|]. cbn [errors completes]. rewrite H3. done.
  - intros Hn Hempty. apply scanChunk_RevA_throws. rewrite (Hsmall Hn).
    unfold record_status, failed. cbn [completed index errors]. rewrite Hempty.
    rewrite map_size_insert_None by apply lookup_empty. lia.
Qed.

Lemma multiple_error_threshold_witness :
  let st := uploadAllChunks RevA chunks5 (meta5 []) [(0, false); (1, false)]%nat in
  failure st = None /\ 2%nat ∈ active st /\
  failure (respond RevA (length chunks5) st (2%nat, false))
    = Some Multiple_Chunk_Upload_Error /\
  errors (acc (respond RevA (length chunks5) st (2%nat, false))) = ∅.
Proof.
  intros st.
  assert (Hf : failure st = None) by (vm_compute; reflexivity).
  assert (Ha : active st = [2; 3; 4]%nat) by (vm_compute; reflexivity).
  assert (Hj : 2%nat ∈ active st) by (rewrite Ha; left).
  split; [exact Hf|]. split; [exact Hj|].
  destruct (multiple_error_threshold chunks5 (meta5 []) [(0, false); (1, false)]%nat
              2%nat false seed 1%nat 3%nat 4%nat) as (Hrun & _).
  destruct (Hrun Hf Hj) as (Hiff & Hclear & _).
  assert (Hfail : failure (respond RevA (length chunks5) st (2%nat, false))
                  = Some Multiple_Chunk_Upload_Error).
  { apply Hiff. vm_compute. lia. }
  split; [exact Hfail|]. exact (Hclear Hfail).
Defined.

(** Revision A, every run: with more than 3 chunks and fewer than 3 failed
    chunk attempts the run raises no error.  A chunk is POSTed at most once
    per run, so a failed chunk is not dispatched again: it stays in [errors]
    and out of [completes]; once every request is answered
    [|completes| + |errors|] is the number of POSTs, and a run with a failed
    chunk ends short of [|completes| = chunks]. *)
Lemma tolerated_failures_stay_failed (chunks : list Blob) (fileMeta : FileMeta)
    (answers : list (nat * bool)) :
  (3 < length chunks)%nat ->
  (length (filter failing answers) < 3)%nat ->
  let st := uploadAllChunks RevA chunks fileMeta answers in
  failure st = None /\
  NoDup (posts st) /\
  (forall i : nat, is_Some (errors (acc st) !! i) -> completes (acc st) !! i = None) /\
  (settled st = true ->
     (size (completes (acc st)) + size (errors (acc st)) = length (posts st))%nat /\
     (length (posts st) <= length chunks)%nat /\
     (errors (acc st) ≠ ∅ -> all_complete (length chunks) (acc st) = false)).
Proof.
  intros Hn Hfew st.
  pose proof (uploadAllChunks_inv RevA chunks fileMeta answers) as HI. fold st in HI.
  destruct (seed_tolerated RevA (length chunks) fileMeta) as [Hf0 Ha0].
  assert (Hf : failure st = None).
  { apply (run_RevA_tolerates (length chunks) fileMeta); [apply DispatchInv_subscribe|done|].
    rewrite Ha0. cbn [errors seed]. rewrite map_size_empty.
    unfold threshold. destruct (Nat.ltb_spec 3 (length chunks)); lia. }
  destruct (posts_bound RevA (length chunks) fileMeta st HI) as [Hnd Hlen].
  split; [done|]. split; [done|]. split.
  - intros i Hi. destruct (completes (acc st) !! i) eqn:Hc; [|done].
    rewrite (inv_disjoint _ _ _ _ HI Hf i) in Hi by eauto. by destruct Hi.
  - intros Hs. pose proof (settled_count _ _ _ _ HI Hs Hf) as Hct.
    split; [done|]. split; [done|]. intros Hne.
    assert (size (errors (acc st)) ≠ 0%nat) by (intros ?%map_size_empty_inv; done).
    unfold all_complete. apply bool_decide_eq_false. lia.
Qed.

(** C3 (revision A, at the failing input).  Five chunks, the POSTs of
    chunks 1 and 3 fail, every other POST succeeds, and the transport would
    accept chunks 1 and 3 on a further attempt.  No further attempt is made:
    each chunk is POSTed once, chunks 1 and 3 end in [errors] and never reach
    [completes].  No error is raised; the predicate handed to [single] never
    holds, so the run emits [undefined] on completion, and the finish request
    is issued for an upload that lacks two chunks. *)
Theorem finish_fires_with_failed_chunks :
  let answers := [(0, true); (1, false); (2, true); (3, false); (4, true);
                  (1, true); (3, true)]%nat in
  let st := uploadAllChunks RevA chunks5 (meta5 []) answers in
  (3 < length chunks5)%nat /\
  (length (filter failing answers) < 3)%nat /\
  settled st = true /\
  posts st = [0; 1; 2; 3; 4]%nat /\
  failure st = None /\
  completes (acc st) !! 1%nat = None /\
  completes (acc st) !! 3%nat = None /\
  errors (acc st) !! 1%nat = Some true /\
  errors (acc st) !! 3%nat = Some true /\
  all_complete (length chunks5) (acc st) = false /\
  outcome (length chunks5) st = Emitted None /\
  finish_requests (outcome (length chunks5) st) = 1%nat.
Proof. vm_compute. repeat split; try done; lia. Qed.

(** C4 (revision A).  Subscribing to the deferred observable of a chunk
    listed in [uploadedChunks] yields [empty()] and issues no POST; no chunk is
    POSTed twice; and a run whose requests have all been answered has POSTed
    exactly the indices outside [uploadedChunks], in all
    [chunks - |uploadedChunks|] of them. *)
Theorem uploaded_chunks_skipped (chunks : list Blob) (fileMeta : FileMeta)
    (answers : list (nat * bool)) :
  let st := uploadAllChunks RevA chunks fileMeta answers in
  (forall i : nat, i ∈ uploadedChunks fileMeta ->
     chunkRequest (completed_init RevA fileMeta i) i = Empty /\ i ∉ posts st) /\
  NoDup (posts st) /\
  (settled st = true ->
     posts st = filter (λ i, i ∉ uploadedChunks fileMeta) (seq 0 (length chunks)) /\
     (Forall (λ i, (i < length chunks)%nat) (uploadedChunks fileMeta) ->
      length (posts st) =
      (length chunks - size (list_to_set (uploadedChunks fileMeta) : gset nat))%nat)).
Proof.
  intros st.
  pose proof (uploadAllChunks_inv RevA chunks fileMeta answers) as HI. fold st in HI.
  destruct (posts_bound RevA (length chunks) fileMeta st HI) as [Hnd _].
  split; [|split; [done|]].
  - intros i Hi. split.
    + unfold chunkRequest, completed_init. by rewrite bool_decide_eq_true_2.
    + destruct (inv_consumed _ _ _ _ HI) as (consumed & _ & ->).
      rewrite list_elem_of_filter, dispatched_RevA. tauto.
  - intros Hs.
    assert (Hposts : posts st =
      filter (λ i, i ∉ uploadedChunks fileMeta) (seq 0 (length chunks))).
    { rewrite (settled_posts _ _ _ _ HI Hs). apply list_filter_iff.
      intros i. apply dispatched_RevA. }
    split; [done|]. intros Hin. rewrite Hposts. by apply length_filter_not_uploaded.
Qed.

Lemma uploaded_chunks_skipped_witness :
  let st := uploadAllChunks RevA chunks5 (meta5 [0; 2; 4]%nat)
              [(1, true); (3, true)]%nat in
  settled st = true /\
  Forall (λ i, (i < length chunks5)%nat) [0; 2; 4]%nat /\
  length (posts st) = (5 - 3)%nat.
Proof.
  intros st.
  assert (Hs : settled st = true) by (vm_compute; reflexivity).
  assert (Hin : Forall (λ i, (i < length chunks5)%nat) [0; 2; 4]%nat).
  { repeat constructor; vm_compute; lia. }
  split; [exact Hs|]. split; [exact Hin|].
  destruct (uploaded_chunks_skipped chunks5 (meta5 [0; 2; 4]%nat)
              [(1, true); (3, true)]%nat) as (_ & _ & H).
  destruct (H Hs) as [_ Hlen]. exact (Hlen Hin).
Defined.

(** C5.  The first subscription of an engine issues the session-open POST
    and the reply is cached; every later subscription gets the cached
    [FileMeta] and issues no request: exactly one session-open POST, however
    many stages subscribe. *)
Theorem session_opened_once (fileMeta : FileMeta) (later : nat) :
  startPosts (opener_run (engine_subscriptions fileMeta later)) = 1%nat /\
  awaiting (opener_run (engine_subscriptions fileMeta later)) = 0%nat /\
  cache (opener_run (engine_subscriptions fileMeta later)) = Some fileMeta /\
  delivered (opener_run (engine_subscriptions fileMeta later)) =
    repeat fileMeta (S later) /\
  forall o : Opener, cache o = Some fileMeta ->
    startPosts (opener_step o Subscribe) = startPosts o /\
    delivered (opener_step o Subscribe) = delivered o ++ [fileMeta].
Proof.
  unfold opener_run, engine_subscriptions. cbn [foldl].
  rewrite (opener_replays fileMeta) by reflexivity. cbn.
  do 4 (split; [reflexivity|]).
  intros o Hc. unfold opener_step, startChunkUpload_defer. by rewrite Hc.
Qed.

Lemma session_opened_once_witness :
  cache (opener_run [Subscribe; Reply (meta5 [])]) = Some (meta5 []) /\
  startPosts (opener_step (opener_run [Subscribe; Reply (meta5 [])]) Subscribe) = 1%nat.
Proof.
  split; [reflexivity|].
  destruct (session_opened_once (meta5 []) 0) as (_ & _ & _ & _ & H).
  destruct (H (opener_run [Subscribe; Reply (meta5 [])])) as [Hposts _]; [reflexivity|].
  exact Hposts.
Defined.

(** C6, as the claim has it, at two concrete runs.  Chunk 0 reports 50
    bytes, restarts at 0 and reports 50 bytes again: the regression is
    dropped, but the second 50 is not greater than the value emitted before it
    and is emitted all the same, so the emitted values are not strictly
    increasing.  And a transport reporting 600 bytes for a 500-byte file makes
    the stage emit 6/5: nothing clamps the quotient. *)
Lemma progress_repeats_and_is_not_clamped :
  let restart := [ {| cp_index := 0; loaded := 50 |};
                   {| cp_index := 0; loaded := 0 |};
                   {| cp_index := 0; loaded := 50 |} ] in
  progress (meta5 []) restart = [50 # 500; 50 # 500]%Q /\
  ~ StronglySorted Qlt (progress (meta5 []) restart) /\
  progress (meta5 []) [ {| cp_index := 0; loaded := 600 |} ] = [600 # 500]%Q /\
  ~ (600 # 500 <= 1)%Q.
Proof.
  intros restart.
  assert (Hrun : progress (meta5 []) restart = [50 # 500; 50 # 500]%Q)
    by (vm_compute; reflexivity).
  split; [exact Hrun|]. split.
  - rewrite Hrun. intros Hs. inversion Hs as [|? ? _ Hall]; subst.
    inversion Hall as [|? ? Hlt _]; subst. by apply Qlt_irrefl in Hlt.
  - split; [vm_compute; reflexivity|]. unfold Qle. cbn. lia.
Qed.

(** C6, amended.  The values one subscription to [progress$] emits never
    decrease: a value is dropped exactly when it is strictly smaller than the
    value emitted before it, so an equal value is emitted again.  Each emitted
    value is the sum of the bytes every chunk reported last, divided by
    [fileSize], without clamping: it is never negative, and it is at most 1
    whenever that sum does not exceed [fileSize]. *)
Theorem progress_never_decreases (fileMeta : FileMeta) (events : list ChunkProgress) :
  0 < fileSize fileMeta ->
  Forall (λ cp, 0 <= loaded cp) events ->
  StronglySorted Qle (progress fileMeta events) /\
  (forall v : Q, v ∈ progress fileMeta events ->
     exists pre : list ChunkProgress,
       pre `prefix_of` events /\
       v = progressOf fileMeta (foldl scanProgress ∅ pre) /\
       (forall i : nat, foldl scanProgress ∅ pre !! i = latest_loaded i pre) /\
       (0 <= v)%Q /\
       (totalLoaded (foldl scanProgress ∅ pre) <= fileSize fileMeta -> (v <= 1)%Q)) /\
  (forall (k v : Q) (rest : list Q),
     distinctUntilChanged greater (Some k) (v :: rest) =
     if Qlt_le_dec v k then distinctUntilChanged greater (Some k) rest
     else v :: distinctUntilChanged greater (Some v) rest).
Proof.
  intros Hsize Hloaded. split; [|split].
  - apply distinctUntilChanged_sorted.
  - intros v Hv. apply distinctUntilChanged_elem in Hv.
    apply list_elem_of_fmap in Hv as (acc & -> & Hacc).
    destruct (scan_states_prefix _ _ _ Hacc) as (pre & Hpre & ->).
    exists pre. split; [done|]. split; [done|]. split; [apply scan_latest|].
    destruct (progressOf_bounds fileMeta (foldl scanProgress ∅ pre) Hsize) as [Hlo Hhi].
    split; [|done]. apply Hlo, totalLoaded_nonneg, scan_nonneg.
    destruct Hpre as [rest ->]. by apply Forall_app in Hloaded as [? _].
  - apply distinctUntilChanged_step.
Qed.

Lemma progress_never_decreases_witness :
  let events := [ {| cp_index := 0; loaded := 50 |};
                  {| cp_index := 1; loaded := 100 |};
                  {| cp_index := 0; loaded := 0 |};
                  {| cp_index := 0; loaded := 100 |} ] in
  0 < fileSize (meta5 []) /\
  Forall (λ cp, 0 <= loaded cp) events /\
  StronglySorted Qle (progress (meta5 []) events).
Proof.
  intros events.
  assert (Hsize : 0 < fileSize (meta5 [])) by (simpl; lia).
  assert (Hloaded : Forall (λ cp, 0 <= loaded cp) events)
    by (repeat constructor; simpl; lia).
  split; [exact Hsize|]. split; [exact Hloaded|].
  exact (proj1 (progress_never_decreases (meta5 []) events Hsize Hloaded)).
Defined.

(** C7.  For every blob, [chunks >= 1] and [chunkSize] with
    [chunkSize * (chunks - 1) < size <= chunkSize * chunks], [sliceFile]
    returns exactly [chunks] blobs; blob [i] holds the bytes
    [i * chunkSize, min ((i + 1) * chunkSize, size)); the blobs concatenate
    to the original; every non-final blob has length [chunkSize] and the last
    has length [size - (chunks - 1) * chunkSize]. *)
Theorem sliceFile_correct (file : Blob) (chunks chunkSize : Z) :
  1 <= chunks ->
  chunkSize * (chunks - 1) < Blob_size file <= chunkSize * chunks ->
  Z.of_nat (length (sliceFile file chunks chunkSize)) = chunks /\
  (forall i : nat, Z.of_nat i < chunks ->
     sliceFile file chunks chunkSize !! i =
     Some (bytes_between file (Z.of_nat i * chunkSize)
             (Z.min ((Z.of_nat i + 1) * chunkSize) (Blob_size file)))) /\
  concat (sliceFile file chunks chunkSize) = file /\
  (forall (i : nat) (b : Blob), Z.of_nat i < chunks - 1 ->
     sliceFile file chunks chunkSize !! i = Some b ->
     Z.of_nat (length b) = chunkSize) /\
  (exists b : Blob, last (sliceFile file chunks chunkSize) = Some b /\
     Z.of_nat (length b) = Blob_size file - (chunks - 1) * chunkSize).
Proof.
  intros Hchunks [Hlo Hhi].
  pose proof (chunkSize_pos file chunks chunkSize Hchunks Hlo) as Hc.
  assert (Hlookup : forall i : nat, Z.of_nat i < chunks ->
     sliceFile file chunks chunkSize !! i =
     Some (bytes_between file (Z.of_nat i * chunkSize)
             (Z.min ((Z.of_nat i + 1) * chunkSize) (Blob_size file)))).
  { intros i Hi. rewrite sliceFile_map, list_lookup_fmap.
    rewrite (lookup_seqZ_lt 0 _ i) by lia. cbn [fmap option_fmap option_map].
    rewrite Z.add_0_l. by rewrite sliceFile_iteration_range by lia. }
  assert (Hlen : Z.of_nat (length (sliceFile file chunks chunkSize)) = chunks).
  { rewrite sliceFile_map, length_map, length_seqZ. lia. }
  split; [exact Hlen|]. split; [exact Hlookup|]. split; [|split].
  - rewrite sliceFile_map, (sliceFile_prefix file chunks chunkSize) by lia.
    rewrite Z.min_r by lia. apply bytes_between_all.
  - intros i b Hi Hb. rewrite Hlookup in Hb by lia. injection Hb as <-.
    rewrite Z.min_l by nia. rewrite bytes_between_length; nia.
  - exists (bytes_between file ((chunks - 1) * chunkSize) (Blob_size file)). split.
    + rewrite last_lookup.
      replace (Nat.pred (length (sliceFile file chunks chunkSize)))
        with (Z.to_nat (chunks - 1)) by lia.
      rewrite Hlookup by lia. rewrite Z.min_r by nia.
      by replace (Z.of_nat (Z.to_nat (chunks - 1))) with (chunks - 1) by lia.
    + rewrite bytes_between_length; nia.
Qed.

Lemma sliceFile_correct_witness :
  let file : Blob := [Byte.x61; Byte.x62; Byte.x63; Byte.x64; Byte.x65] in
  1 <= 3 /\ 2 * (3 - 1) < Blob_size file <= 2 * 3 /\
  concat (sliceFile file 3 2) = file.
Proof.
  intros file. split; [lia|]. split; [unfold Blob_size; simpl; lia|].
  apply (sliceFile_correct file 3 2); [lia | unfold Blob_size; simpl; lia].
Defined.

(** C8 (revision B).  Once [cleanUp] has run, [start()], [pause()],
    [resume()], [retry()] and [abort()] are no-ops: none throws and none
    changes the engine. *)
Theorem methods_after_teardown (eng eng' : Engine) (m : Method) :
  cleanUp eng = Ok eng' -> call m eng' = Ok eng'.
Proof.
  intros Hrun.
  destruct m; unfold call, start, pause, resume, retry, abort;
    by rewrite (cleanUp_closes eng eng' _ Hrun).
Qed.

Lemma methods_after_teardown_witness :
  exists eng' : Engine,
    cleanUp opening = Ok eng' /\ call call_pause eng' = Ok eng'.
Proof.
  eexists. split; [vm_compute; reflexivity|].
  apply (methods_after_teardown opening _ call_pause). vm_compute. reflexivity.
Defined.

(** C9 (revision B, at the failing input).  [abort()] on an engine that is
    opening its session, or uploading chunks: the call returns, the output
    stream has completed, and nothing was appended to it, neither [finish] nor
    [pausable(false)], [retryable(false)].  The notifier of [takeUntil] is
    the first observer of the abort subject; completing the chain runs
    [cleanUp], which completes the abort subject and with it the flag-cleanup
    branch before that branch is handed the abort. *)
Theorem abort_emits_no_cleanup_events (fileMeta : FileMeta) :
  throws (call call_abort opening) = false /\
  output (result_engine (call call_abort opening)) = [Start; Pausable true; Retryable false] /\
  output_completed (result_engine (call call_abort opening)) = true /\
  throws (call call_abort (uploading fileMeta)) = false /\
  output (result_engine (call call_abort (uploading fileMeta))) =
    [Start; Pausable true; Retryable false; Chunkstart fileMeta] /\
  output_completed (result_engine (call call_abort (uploading fileMeta))) = true.
Proof. repeat split; vm_compute; reflexivity. Qed.

(** C10, as the claim has it, at the empty chunk list: the run does not
    fail with [EmptyError]; it emits the seed accumulator. *)
Lemma empty_upload_succeeds :
  outcome 0 (uploadAllChunks RevA [] (meta5 []) []) = Emitted (Some seed) /\
  outcome 0 (uploadAllChunks RevA [] (meta5 []) []) ≠ Failed EmptyError.
Proof. split; [reflexivity|discriminate]. Qed.

(** C10, amended (both revisions).  For zero chunks the slicer returns the
    empty list, no [ChunkStatus] is folded and no POST is issued; when its
    source completes [mergeScan] emits the untouched seed, the seed satisfies
    [|completes| = 0 = chunks], and [single] emits it: the run completes
    successfully. *)
Theorem zero_chunks_emit_seed (rev : Revision) (file : Blob) (chunkSize : Z)
    (fileMeta : FileMeta) (answers : list (nat * bool)) :
  sliceFile file 0 chunkSize = [] /\
  posts (uploadAllChunks rev [] fileMeta answers) = [] /\
  acc (uploadAllChunks rev [] fileMeta answers) = seed /\
  outcome 0 (uploadAllChunks rev [] fileMeta answers) = Emitted (Some seed).
Proof.
  split; [reflexivity|].
  assert (Hrun : uploadAllChunks rev [] fileMeta answers =
                 subscribe 0 (initial_flags rev 0 fileMeta) seed).
  { unfold uploadAllChunks. cbn [length]. by apply run_idle. }
  rewrite Hrun. repeat split.
Qed.

(* ================================================================== *)
(** * Further properties *)
(* ================================================================== *)

(** ** Slicer: any file size *)

Lemma Blob_slice_clamped (file : Blob) (a b : Z) :
  0 <= a -> 0 <= b ->
  Blob_slice file a b =
  bytes_between file (Z.min a (Blob_size file)) (Z.min b (Blob_size file)).
Proof.
  intros Ha Hb. unfold Blob_slice, bytes_between.
  destruct (Z.ltb_spec a 0); [lia|]. destruct (Z.ltb_spec b 0); [lia|].
  f_equal. lia.
Qed.

Lemma sliceFile_iteration_clamped (file : Blob) (chunks chunkSize i : Z) :
  0 <= chunkSize -> 0 <= i < chunks ->
  sliceFile_iteration file chunks chunkSize i =
  bytes_between file (Z.min (i * chunkSize) (Blob_size file))
    (if i =? chunks - 1 then Blob_size file
     else Z.min ((i + 1) * chunkSize) (Blob_size file)).
Proof.
  intros Hc Hi. unfold sliceFile_iteration.
  assert (0 <= Blob_size file) by (unfold Blob_size; lia).
  destruct (Z.eqb_spec i (chunks - 1)) as [->|Hne].
  - rewrite Blob_slice_clamped by nia. f_equal. lia.
  - rewrite Blob_slice_clamped by nia. done.
Qed.

Lemma sliceFile_prefix_clamped (file : Blob) (chunks chunkSize : Z) (k : nat) :
  0 <= chunkSize -> Z.of_nat k <= chunks - 1 ->
  concat (map (sliceFile_iteration file chunks chunkSize) (seqZ 0 (Z.of_nat k))) =
  bytes_between file 0 (Z.min (Z.of_nat k * chunkSize) (Blob_size file)).
Proof.
  intros Hc. assert (0 <= Blob_size file) as Hsz by (unfold Blob_size; lia).
  induction k as [|k IH]; intros Hk.
  - simpl. unfold bytes_between. by rewrite Z.min_l by lia.
  - rewrite seqZ_S, map_app, concat_app, IH by lia. cbn [map concat].
    rewrite app_nil_r, Z.add_0_l, sliceFile_iteration_clamped by lia.
    destruct (Z.eqb_spec (Z.of_nat k) (chunks - 1)) as [|_]; [lia|].
    replace (Z.of_nat (S k)) with (Z.of_nat k + 1) by lia.
    apply bytes_between_app; nia.
Qed.

Lemma sliceFile_lossless (file : Blob) (chunks chunkSize : Z) :
  1 <= chunks -> 0 <= chunkSize ->
  concat (sliceFile file chunks chunkSize) = file.
Proof.
  intros Hn Hc. assert (0 <= Blob_size file) as Hsz by (unfold Blob_size; lia).
  rewrite sliceFile_map.
  replace (Z.of_nat (Z.to_nat chunks)) with (Z.of_nat (S (Z.to_nat (chunks - 1)))) by lia.
  rewrite seqZ_S, map_app, concat_app, sliceFile_prefix_clamped by lia.
  cbn [map concat]. rewrite app_nil_r, Z.add_0_l, sliceFile_iteration_clamped by lia.
  replace (Z.of_nat (Z.to_nat (chunks - 1))) with (chunks - 1) by lia.
  rewrite Z.eqb_refl. rewrite bytes_between_app by nia. apply bytes_between_all.
Qed.

Lemma sliceFile_length (file : Blob) (chunks chunkSize : Z) :
  length (sliceFile file chunks chunkSize) = Z.to_nat chunks.
Proof. rewrite sliceFile_map, length_map, length_seqZ. lia. Qed.

(** X1.  [sliceFile] loses no byte, whatever the size of the file: for
    [chunks >= 1] and [chunkSize >= 0] the slices concatenate to the file.
    Every slice but the last is at most [chunkSize] long; the last one runs
    to the end of the file, even beyond [chunkSize], and slices that would
    start past the end are empty. *)
Theorem sliceFile_concat (file : Blob) (chunks chunkSize : Z) :
  1 <= chunks -> 0 <= chunkSize ->
  concat (sliceFile file chunks chunkSize) = file /\
  (forall (i : nat) (b : Blob), Z.of_nat i < chunks - 1 ->
     sliceFile file chunks chunkSize !! i = Some b ->
     Z.of_nat (length b) <= chunkSize /\
     (Blob_size file <= Z.of_nat i * chunkSize -> b = [])) /\
  last (sliceFile file chunks chunkSize) =
    Some (bytes_between file (Z.min ((chunks - 1) * chunkSize) (Blob_size file))
            (Blob_size file)).
Proof.
  intros Hn Hc. assert (0 <= Blob_size file) as Hsz by (unfold Blob_size; lia).
  assert (Hlookup : forall i : nat, Z.of_nat i < chunks ->
    sliceFile file chunks chunkSize !! i =
    Some (sliceFile_iteration file chunks chunkSize (Z.of_nat i))).
  { intros i Hi. rewrite sliceFile_map, list_lookup_fmap.
    rewrite (lookup_seqZ_lt 0 _ i) by lia. by rewrite Z.add_0_l. }
  split; [by apply sliceFile_lossless|]. split.
  - intros i b Hi Hb. rewrite Hlookup in Hb by lia. injection Hb as <-.
    rewrite sliceFile_iteration_clamped by lia.
    destruct (Z.eqb_spec (Z.of_nat i) (chunks - 1)) as [|_]; [lia|].
    unfold bytes_between. split.
    + rewrite length_take. nia.
    + intros Hpast. rewrite !Z.min_r by nia. by rewrite Z.sub_diag.
  - rewrite last_lookup, sliceFile_length.
    replace (Nat.pred (Z.to_nat chunks)) with (Z.to_nat (chunks - 1)) by lia.
    rewrite Hlookup, sliceFile_iteration_clamped by lia.
    replace (Z.of_nat (Z.to_nat (chunks - 1))) with (chunks - 1) by lia.
    by rewrite Z.eqb_refl.
Qed.

Lemma sliceFile_concat_witness :
  let file : Blob := [Byte.x61; Byte.x62; Byte.x63; Byte.x64; Byte.x65; Byte.x66; Byte.x67] in
  1 <= 3 /\ 0 <= 2 /\ concat (sliceFile file 3 2) = file /\
  sliceFile file 3 2 = [[Byte.x61; Byte.x62]; [Byte.x63; Byte.x64];
                        [Byte.x65; Byte.x66; Byte.x67]].
Proof.
  intros file. split; [lia|]. split; [lia|].
  split; [apply (sliceFile_concat file 3 2); lia|reflexivity].
Defined.

(** X2.  [sliceFile] returns as many slices as its loop has iterations:
    [chunks] of them, and none when [chunks] is zero or negative, so that the
    bytes of a non-empty file are then in no slice. *)
Theorem sliceFile_count (file : Blob) (chunks chunkSize : Z) :
  length (sliceFile file chunks chunkSize) = Z.to_nat chunks /\
  (chunks <= 0 -> sliceFile file chunks chunkSize = [] /\
     (file <> [] -> concat (sliceFile file chunks chunkSize) <> file)).
Proof.
  split; [apply sliceFile_length|].
  intros Hn.
  assert (Hnil : sliceFile file chunks chunkSize = []).
  { unfold sliceFile. by replace (Z.to_nat chunks) with 0%nat by lia. }
  split; [exact Hnil|]. rewrite Hnil. cbn. congruence.
Qed.

Lemma sliceFile_count_witness :
  -1 <= 0 /\ sliceFile file500 (-1) 100 = [].
Proof.
  split; [lia|]. apply (sliceFile_count file500 (-1) 100). lia.
Defined.

(** ** Chunk dispatcher: bounds, order and outcome *)

(** X3.  At any moment of a run, in both revisions, at most three chunk
    POSTs are in flight, they are for distinct chunks, and each of them has
    been logged as issued. *)
Theorem at_most_three_in_flight (rev : Revision) (chunks : list Blob)
    (fileMeta : FileMeta) (answers : list (nat * bool)) :
  (length (active (uploadAllChunks rev chunks fileMeta answers)) <= 3)%nat /\
  NoDup (active (uploadAllChunks rev chunks fileMeta answers)) /\
  active (uploadAllChunks rev chunks fileMeta answers)
    ⊆ posts (uploadAllChunks rev chunks fileMeta answers).
Proof.
  pose proof (uploadAllChunks_inv rev chunks fileMeta answers) as HI.
  split; [apply (inv_active_bound _ _ _ _ HI)|].
  split; [apply (inv_active_nodup _ _ _ _ HI)|].
  intros i. apply (inv_active_posted _ _ _ _ HI).
Qed.

Lemma StronglySorted_seq (a n : nat) : StronglySorted lt (seq a n).
Proof.
  revert a. induction n as [|n IH]; intros a; [constructor|].
  cbn [seq]. constructor; [apply IH|].
  apply Forall_forall. intros x Hx%elem_of_seq. lia.
Qed.

Lemma StronglySorted_filter_lt (P : nat -> Prop) `{!forall x, Decision (P x)}
    (l : list nat) :
  StronglySorted lt l -> StronglySorted lt (filter P l).
Proof.
  induction 1 as [|x l Hs IH Hall]; [constructor|].
  rewrite filter_cons. destruct (decide (P x)); [|done].
  constructor; [done|]. apply Forall_forall. intros y [_ Hy]%list_elem_of_filter.
  rewrite Forall_forall in Hall. by apply Hall.
Qed.

(** X4.  Chunks are POSTed in increasing index order: the log of POSTs is
    strictly increasing, so no chunk is POSTed twice in a run, and it holds
    only indices below [chunks.length]. *)
Theorem posts_in_index_order (rev : Revision) (chunks : list Blob)
    (fileMeta : FileMeta) (answers : list (nat * bool)) :
  StronglySorted lt (posts (uploadAllChunks rev chunks fileMeta answers)) /\
  Forall (λ i, (i < length chunks)%nat)
    (posts (uploadAllChunks rev chunks fileMeta answers)).
Proof.
  pose proof (uploadAllChunks_inv rev chunks fileMeta answers) as HI.
  destruct (inv_consumed _ _ _ _ HI) as (consumed & Hseq & ->).
  pose proof (StronglySorted_seq 0 (length chunks)) as Hs. rewrite Hseq in Hs.
  split.
  - apply StronglySorted_filter_lt.
    clear Hseq. induction consumed as [|x l IH]; [constructor|].
    cbn [app] in Hs. inversion Hs as [|? ? Hs' Hall]; subst.
    constructor; [by apply IH|]. by apply Forall_app in Hall as [? _].
  - apply Forall_forall. intros i [_ Hi]%list_elem_of_filter.
    assert (i ∈ seq 0 (length chunks)) as Hin by (rewrite Hseq; set_solver).
    apply elem_of_seq in Hin. lia.
Qed.

Lemma scanChunk_completes (rev : Revision) (n : nat) (a : ChunkScan) (x : ChunkStatus) :
  completes (scan_object (scanChunk rev n a x)) =
  if completed x then <[index x := true]> (completes a) else completes a.
Proof.
  unfold scanChunk, record_status.
  by destruct (completed x), (errors_trip rev n _).
Qed.

Lemma completes_full (n : nat) (m : gmap nat bool) :
  (forall i : nat, is_Some (m !! i) -> (i < n)%nat) -> size m = n ->
  forall i : nat, (i < n)%nat -> is_Some (m !! i).
Proof.
  intros Hbound Hsize.
  assert (Hdom : dom m = (list_to_set (seq 0 n) : gset nat)).
  { apply set_subseteq_size_eq.
    - intros i Hi. apply elem_of_dom in Hi. rewrite elem_of_list_to_set, elem_of_seq.
      specialize (Hbound i Hi). lia.
    - rewrite size_dom, size_list_to_set by apply NoDup_seq. rewrite length_seq. lia. }
  intros i Hi. apply elem_of_dom. rewrite Hdom, elem_of_list_to_set, elem_of_seq. lia.
Qed.

Lemma AccInv_fill (n : nat) (st : Dispatch) :
  AccInv n st -> AccInv n (mergeAll_fill st).
Proof.
  intros [Hc Ha Hb Hs]. unfold mergeAll_fill.
  destruct (subscribeBuffered_split (flags st) (buffer st) (active st) (posts st))
    as (b1 & Hsplit & Hact & _).
  destruct (subscribeBuffered (flags st) (buffer st) (active st) (posts st))
    as [[b a] p]. simpl in Hsplit, Hact.
  constructor; cbn [acc active buffer seenValue]; [done| | |done].
  - intros i Hi. rewrite Hact in Hi. apply elem_of_app in Hi as [Hi|Hi]; [by apply Ha|].
    apply list_elem_of_filter in Hi as [_ Hi]. apply Hb. rewrite Hsplit. set_solver.
  - intros i Hi. apply Hb. rewrite Hsplit. set_solver.
Qed.

Lemma AccInv_respond (rev : Revision) (n : nat) (st : Dispatch) (answer : nat * bool) :
  AccInv n st -> AccInv n (respond rev n st answer).
Proof.
  intros HI. destruct answer as [j ok]. unfold respond.
  destruct (failure st); [done|]. case_bool_decide as Hj; [|done].
  destruct HI as [Hc Ha Hb Hs].
  pose proof (scanChunk_completes rev n (acc st) {| index := j; completed := ok |}) as Hsc.
  cbn [completed index] in Hsc.
  assert (Hbound : forall i : nat,
    is_Some (completes (scan_object
      (scanChunk rev n (acc st) {| index := j; completed := ok |})) !! i) -> (i < n)%nat).
  { intros i. rewrite Hsc. destruct ok; [|apply Hc].
    destruct (decide (i = j)) as [->|Hij]; [intros _; by apply Ha|].
    rewrite lookup_insert_ne by done. apply Hc. }
  assert (Hmono : forall i : nat, is_Some (completes (acc st) !! i) ->
    is_Some (completes (scan_object
      (scanChunk rev n (acc st) {| index := j; completed := ok |})) !! i)).
  { intros i Hi. rewrite Hsc. destruct ok; [|done].
    destruct (decide (i = j)) as [->|Hij]; [by rewrite lookup_insert_eq|].
    by rewrite lookup_insert_ne. }
  assert (Hact : forall i : nat, i ∈ filter (λ i, i ≠ j) (active st) -> (i < n)%nat).
  { intros i Hi. apply list_elem_of_filter in Hi as [_ Hi]. by apply Ha. }
  destruct (scanChunk rev n (acc st) {| index := j; completed := ok |}) as [a'|a'];
    cbn [scan_object] in Hbound, Hmono.
  - match goal with |- context [single_next n ?s] => set (st1 := single_next n s) end.
    assert (HI1 : AccInv n st1).
    { constructor; cbn [st1 single_next acc active buffer seenValue]; [done..|].
      intros Hseen. apply orb_true_iff in Hseen as [Hseen|Hm].
      - intros i Hi. by apply Hmono, Hs.
      - unfold all_complete in Hm. apply bool_decide_eq_true in Hm. cbn [acc] in Hm.
        by apply completes_full. }
    destruct (failure st1); [done|by apply AccInv_fill].
  - constructor; cbn [acc active buffer seenValue]; [done..|].
    intros Hseen i Hi. by apply Hmono, Hs.
Qed.

Lemma AccInv_run (rev : Revision) (n : nat) (answers : list (nat * bool)) :
  forall st : Dispatch, AccInv n st -> AccInv n (run rev n st answers).
Proof.
  induction answers as [|x answers IH]; intros st HI; [done|].
  cbn [run foldl]. apply IH. by apply AccInv_respond.
Qed.

Lemma AccInv_subscribe (n : nat) (F : gset nat) (a : ChunkScan) :
  (forall i : nat, is_Some (completes a !! i) -> (i < n)%nat) ->
  AccInv n (subscribe n F a).
Proof.
  intros Ha. apply AccInv_fill. constructor; cbn [acc active buffer seenValue]; [done| | |done].
  - intros i Hi. by apply elem_of_nil in Hi.
  - intros i Hi. apply elem_of_seq in Hi. lia.
Qed.

Lemma AccInv_resumed (rev : Revision) (n : nat) (segments : list (list (nat * bool))) :
  forall st : Dispatch, AccInv n st -> AccInv n (resumed rev n st segments).
Proof.
  induction segments as [|answers rest IH]; intros st HI; [done|].
  cbn [resumed]. apply IH, AccInv_run, AccInv_subscribe, (ai_completes _ _ HI).
Qed.

Lemma AccInv_uploadAllChunks (rev : Revision) (chunks : list Blob) (fileMeta : FileMeta)
    (answers : list (nat * bool)) :
  AccInv (length chunks) (uploadAllChunks rev chunks fileMeta answers).
Proof.
  apply AccInv_run, AccInv_subscribe. intros i [x Hi].
  unfold seed in Hi. cbn [completes] in Hi. by rewrite lookup_empty in Hi.
Qed.

Lemma emitted_value (n : nat) (st : Dispatch) (a : ChunkScan) :
  AccInv n st -> outcome n st = Emitted (Some a) ->
  a = acc st /\ forall i : nat, (i < n)%nat -> is_Some (completes (acc st) !! i).
Proof.
  intros HI Hout. unfold outcome in Hout. destruct (failure st) eqn:Hf; [done|].
  destruct (settled st); [|done].
  unfold mergeScan_complete, single_complete in Hout. destruct (hasValue st).
  - rewrite Hf in Hout. destruct (0 <? seen st)%nat; [|done].
    destruct (seenValue st) eqn:Hseen; [|done]. injection Hout as <-.
    split; [done|]. by apply (ai_seen _ _ HI).
  - unfold single_next in Hout. cbn [failure seen seenValue acc] in Hout.
    rewrite Hf in Hout.
    destruct (all_complete n (acc st) && seenValue st); [done|].
    cbn in Hout. destruct (seenValue st || all_complete n (acc st)) eqn:Hor; [|done].
    injection Hout as <-. split; [done|].
    apply orb_true_iff in Hor as [Hseen|Hm].
    + by apply (ai_seen _ _ HI).
    + unfold all_complete in Hm. apply bool_decide_eq_true in Hm.
      apply completes_full; [apply (ai_completes _ _ HI)|done].
Qed.

Lemma first_emission_posts_all (rev : Revision) (chunks : list Blob) (fileMeta : FileMeta)
    (answers : list (nat * bool)) (a : ChunkScan) :
  outcome (length chunks) (uploadAllChunks rev chunks fileMeta answers) = Emitted (Some a) ->
  errors (acc (uploadAllChunks rev chunks fileMeta answers)) = ∅ /\
  posts (uploadAllChunks rev chunks fileMeta answers) = seq 0 (length chunks).
Proof.
  intros Hout.
  destruct (emitted_value _ _ _ (AccInv_uploadAllChunks rev chunks fileMeta answers) Hout)
    as [_ Hfull].
  pose proof (uploadAllChunks_inv rev chunks fileMeta answers) as HI.
  set (st := uploadAllChunks rev chunks fileMeta answers) in *.
  set (n := length chunks) in *.
  unfold outcome in Hout. destruct (failure st) eqn:Hf; [done|].
  destruct (settled st) eqn:Hs; [|done].
  assert (Hsize : (n <= size (completes (acc st)))%nat).
  { assert (Hsub : (list_to_set (seq 0 n) : gset nat) ⊆ dom (completes (acc st))).
    { intros i Hi. apply elem_of_list_to_set, elem_of_seq in Hi.
      apply elem_of_dom, Hfull. lia. }
    apply subseteq_size in Hsub.
    rewrite size_dom, size_list_to_set, length_seq in Hsub by apply NoDup_seq. done. }
  pose proof (settled_count _ _ _ _ HI Hs Hf) as Hct.
  destruct (posts_bound _ _ _ _ HI) as [Hnd Hlen]. fold n in Hlen.
  assert (Herr : errors (acc st) = ∅) by (apply map_size_empty_inv; lia).
  split; [done|].
  rewrite (settled_posts _ _ _ _ HI Hs). rewrite (settled_posts _ _ _ _ HI Hs) in Hct.
  fold n in Hct |- *.
  assert (Hall : length (filter (dispatched rev fileMeta) (seq 0 n)) = length (seq 0 n)).
  { pose proof (length_filter (dispatched rev fileMeta) (seq 0 n)) as Hle.
    rewrite length_seq in *. lia. }
  clear -Hall. induction (seq 0 n) as [|x l IH]; [done|].
  rewrite filter_cons in *. destruct (decide (dispatched rev fileMeta x)).
  - cbn [length] in Hall. f_equal. apply IH. lia.
  - pose proof (length_filter (dispatched rev fileMeta) l). cbn [length] in Hall. lia.
Qed.

(** X5.  Whenever a subscription to the observable of [uploadAllChunks]
    emits its accumulator, be it the first subscription or one made by a
    resume after any number of pauses, every index below [chunks.length] is
    in [completes].  When it is the first subscription, [errors] is empty
    as well and that subscription has POSTed every chunk; a later one may
    emit with the [errors] left from before the pause, having POSTed only
    the chunks that were not completed. *)
Theorem emitted_accumulator_is_complete (rev : Revision) (chunks : list Blob)
    (fileMeta : FileMeta) (answers : list (nat * bool))
    (segments : list (list (nat * bool))) (a : ChunkScan) :
  outcome (length chunks)
    (resumed rev (length chunks) (uploadAllChunks rev chunks fileMeta answers) segments)
    = Emitted (Some a) ->
  a = acc (resumed rev (length chunks)
             (uploadAllChunks rev chunks fileMeta answers) segments) /\
  (forall i : nat, (i < length chunks)%nat -> is_Some (completes a !! i)) /\
  (segments = [] ->
   errors a = ∅ /\
   posts (uploadAllChunks rev chunks fileMeta answers) = seq 0 (length chunks)).
Proof.
  intros Hout.
  assert (HI : AccInv (length chunks)
    (resumed rev (length chunks) (uploadAllChunks rev chunks fileMeta answers) segments))
    by apply AccInv_resumed, AccInv_uploadAllChunks.
  destruct (emitted_value _ _ _ HI Hout) as [-> Hfull].
  split; [done|]. split; [done|]. intros ->. cbn [resumed] in Hout |- *.
  by apply (first_emission_posts_all rev chunks fileMeta answers _ Hout).
Qed.

Lemma emitted_accumulator_is_complete_witness :
  let first := [(0, true); (1, false)]%nat in
  let second := [(1, true); (2, true); (3, true); (4, true)]%nat in
  let st := resumed RevA (length chunks5)
              (uploadAllChunks RevA chunks5 (meta5 []) first) [second] in
  outcome (length chunks5) st = Emitted (Some (acc st)) /\
  posts st = [1; 2; 3; 4]%nat /\
  errors (acc st) !! 1%nat = Some true /\
  (forall i : nat, (i < length chunks5)%nat -> is_Some (completes (acc st) !! i)).
Proof.
  intros first second st.
  assert (Hout : outcome (length chunks5) st = Emitted (Some (acc st)))
    by (vm_compute; reflexivity).
  split; [exact Hout|]. split; [vm_compute; reflexivity|].
  split; [vm_compute; reflexivity|].
  exact (proj1 (proj2 (emitted_accumulator_is_complete RevA chunks5 (meta5 []) first
                         [second] (acc st) Hout))).
Defined.

Lemma run_stopped (rev : Revision) (n : nat) (st : Dispatch)
    (answers : list (nat * bool)) :
  failure st <> None -> run rev n st answers = st.
Proof.
  intros Hf. induction answers as [|x answers IH]; [done|].
  cbn [run foldl]. rewrite respond_stopped by done. exact IH.
Qed.

Lemma RevB_run_no_errors (n : nat) (fileMeta : FileMeta) (answers : list (nat * bool)) :
  forall st : Dispatch,
    DispatchInv RevB n fileMeta st -> errors (acc st) = ∅ ->
    failure (run RevB n st answers) = None ->
    errors (acc (run RevB n st answers)) = ∅.
Proof.
  induction answers as [|[i ok] answers IH]; intros st HI He Hf; [done|].
  change (run RevB n st ((i, ok) :: answers))
    with (run RevB n (respond RevB n st (i, ok)) answers) in *.
  destruct (failure st) eqn:Hfs.
  { rewrite respond_stopped, run_stopped in Hf by congruence. congruence. }
  destruct (decide (i ∈ active st)) as [Hi|Hi].
  - destruct (respond_active RevB n fileMeta st i ok HI Hfs Hi) as (Hacc & Hfail & _).
    destruct (scan_throws (scanChunk RevB n (acc st) {| index := i; completed := ok |}))
      eqn:Ht.
    + rewrite run_stopped in Hf by congruence. congruence.
    + apply IH; [by apply DispatchInv_respond| |done].
      rewrite Hacc, scanChunk_object by done.
      destruct ok; [by cbn|]. by rewrite (scanChunk_RevB_failed _ _ i) in Ht.
  - rewrite respond_idle in Hf |- * by done. by apply IH.
Qed.

(** X6.  Revision B does not tolerate a failed chunk: in any state of a
    run, the failure of a chunk in flight ends the run with
    [Multiple_Chunk_Upload_Error], whatever the number of chunks, and leaves
    [errors] empty; accordingly a run of revision B that has not failed has
    recorded no error. *)
Theorem RevB_fails_on_first_error (chunks : list Blob) (fileMeta : FileMeta)
    (answers : list (nat * bool)) (j : nat) :
  (failure (uploadAllChunks RevB chunks fileMeta answers) = None ->
   errors (acc (uploadAllChunks RevB chunks fileMeta answers)) = ∅) /\
  (failure (uploadAllChunks RevB chunks fileMeta answers) = None ->
   j ∈ active (uploadAllChunks RevB chunks fileMeta answers) ->
   failure (respond RevB (length chunks)
              (uploadAllChunks RevB chunks fileMeta answers) (j, false))
     = Some Multiple_Chunk_Upload_Error /\
   errors (acc (respond RevB (length chunks)
                  (uploadAllChunks RevB chunks fileMeta answers) (j, false))) = ∅).
Proof.
  split.
  - apply (RevB_run_no_errors (length chunks) fileMeta); [apply DispatchInv_subscribe|].
    by rewrite (proj2 (seed_tolerated RevB (length chunks) fileMeta)).
  - intros Hf Hj.
    pose proof (uploadAllChunks_inv RevB chunks fileMeta answers) as HI.
    destruct (respond_active RevB (length chunks) fileMeta _ j false HI Hf Hj)
      as (Hacc & Hfail & _).
    pose proof (scanChunk_RevB_failed (length chunks)
                  (acc (uploadAllChunks RevB chunks fileMeta answers)) j) as Ht.
    unfold failed in Ht. rewrite Ht in Hfail. split; [done|]. rewrite Hacc.
    unfold scanChunk in *. by destruct (errors_trip _ _ _).
Qed.

Lemma RevB_fails_on_first_error_witness :
  let st := uploadAllChunks RevB chunks5 (meta5 []) [(0, true)]%nat in
  failure st = None /\ 1%nat ∈ active st /\
  failure (respond RevB (length chunks5) st (1%nat, false))
    = Some Multiple_Chunk_Upload_Error.
Proof.
  intros st.
  assert (Hf : failure st = None) by (vm_compute; reflexivity).
  assert (Ha : active st = [1; 2; 3]%nat) by (vm_compute; reflexivity).
  assert (Hj : 1%nat ∈ active st) by (rewrite Ha; left).
  split; [exact Hf|]. split; [exact Hj|].
  destruct (RevB_fails_on_first_error chunks5 (meta5 []) [(0, true)]%nat 1%nat)
    as [_ Hrun].
  exact (proj1 (Hrun Hf Hj)).
Defined.

Lemma omap_lookup_seq (l : list Blob) :
  forall pre : list Blob,
    omap (λ i, (pre ++ l) !! i) (seq (length pre) (length l)) = l.
Proof.
  induction l as [|x l IH]; intros pre; [done|].
  cbn [length seq]. change (omap ?f (?i :: ?r)) with
    (match f i with Some y => y :: omap f r | None => omap f r end).
  cbv beta. rewrite list_lookup_middle by done. f_equal.
  specialize (IH (pre ++ [x])). rewrite length_app, Nat.add_1_r in IH.
  by rewrite <- app_assoc in IH.
Qed.

Lemma chunk_bodies_all (chunks : list Blob) :
  chunk_bodies chunks (seq 0 (length chunks)) = chunks.
Proof. apply (omap_lookup_seq chunks []). Qed.

(** X8.  A complete upload sends the file, once: when the chunks are the
    slices of the file ([chunks >= 1], [chunkSize >= 0]) and no chunk counts
    as uploaded beforehand (revision B, or an empty [uploadedChunks]), a
    run whose requests have all been answered has POSTed every chunk in index
    order, and the bodies of its POSTs concatenate to the file. *)
Theorem complete_upload_sends_file (rev : Revision) (file : Blob) (fileMeta : FileMeta)
    (answers : list (nat * bool)) :
  1 <= chunks fileMeta -> 0 <= chunkSize fileMeta ->
  rev = RevB \/ uploadedChunks fileMeta = [] ->
  settled (uploadAllChunks rev
             (sliceFile file (chunks fileMeta) (chunkSize fileMeta)) fileMeta answers) = true ->
  posts (uploadAllChunks rev
           (sliceFile file (chunks fileMeta) (chunkSize fileMeta)) fileMeta answers)
    = seq 0 (Z.to_nat (chunks fileMeta)) /\
  concat (chunk_bodies (sliceFile file (chunks fileMeta) (chunkSize fileMeta))
            (posts (uploadAllChunks rev
                      (sliceFile file (chunks fileMeta) (chunkSize fileMeta))
                      fileMeta answers))) = file.
Proof.
  intros Hn Hc Hfresh Hs.
  set (slices := sliceFile file (chunks fileMeta) (chunkSize fileMeta)) in *.
  assert (Hposts : posts (uploadAllChunks rev slices fileMeta answers)
                   = seq 0 (length slices)).
  { rewrite (settled_posts _ _ _ _ (uploadAllChunks_inv _ _ _ _) Hs).
    assert (Hall : forall i, dispatched rev fileMeta i).
    { intros i. unfold dispatched, completed_init.
      destruct Hfresh as [->| ->]; [done|]. destruct rev; [|done].
      apply bool_decide_eq_false. apply not_elem_of_nil. }
    induction (seq 0 (length slices)) as [|i l IH]; [done|].
    by rewrite filter_cons_True, IH. }
  rewrite Hposts, chunk_bodies_all. split.
  - f_equal. apply sliceFile_length.
  - by apply sliceFile_lossless.
Qed.

Lemma complete_upload_sends_file_witness :
  let answers := [(2, true); (0, true); (1, true); (4, true); (3, true)]%nat in
  1 <= chunks (meta5 []) /\ 0 <= chunkSize (meta5 []) /\
  settled (uploadAllChunks RevA chunks5 (meta5 []) answers) = true /\
  concat (chunk_bodies chunks5 (posts (uploadAllChunks RevA chunks5 (meta5 []) answers)))
    = file500.
Proof.
  intros answers.
  assert (Hs : settled (uploadAllChunks RevA chunks5 (meta5 []) answers) = true)
    by (vm_compute; reflexivity).
  split; [simpl; lia|]. split; [simpl; lia|]. split; [exact Hs|].
  apply (complete_upload_sends_file RevA file500 (meta5 []) answers);
    [simpl; lia|simpl; lia|by right|exact Hs].
Defined.

(** ** Chunk dispatcher: re-subscription *)

Lemma mergeAll_fill_flags (st : Dispatch) : flags (mergeAll_fill st) = flags st.
Proof.
  unfold mergeAll_fill.
  by destruct (subscribeBuffered (flags st) (buffer st) (active st) (posts st)) as [[b a] p].
Qed.

Lemma respond_flags (rev : Revision) (n : nat) (st : Dispatch) (j : nat) (ok : bool) :
  flags st ⊆ flags (respond rev n st (j, ok)) /\
  (failure st = None -> j ∈ active st -> ok = true ->
   j ∈ flags (respond rev n st (j, ok))).
Proof.
  unfold respond. destruct (failure st); [split; [done|congruence]|].
  case_bool_decide as Hj; [|split; [done|tauto]].
  destruct (scanChunk rev n (acc st) {| index := j; completed := ok |}) as [a'|a'].
  - match goal with |- context [single_next n ?s] => set (st1 := single_next n s) end.
    assert (Hfl : flags (if failure st1 is Some _ then st1 else mergeAll_fill st1)
                  = if ok then {[j]} ∪ flags st else flags st).
    { destruct (failure st1); [done|]. by rewrite mergeAll_fill_flags. }
    rewrite Hfl. split; [destruct ok; set_solver|]. intros _ _ ->. set_solver.
  - cbn [flags]. split; [destruct ok; set_solver|]. intros _ _ ->. set_solver.
Qed.

Lemma run_flags (rev : Revision) (n : nat) (answers : list (nat * bool)) :
  forall st : Dispatch, flags st ⊆ flags (run rev n st answers).
Proof.
  induction answers as [|[j ok] answers IH]; intros st; [done|].
  change (run rev n st ((j, ok) :: answers))
    with (run rev n (respond rev n st (j, ok)) answers).
  etrans; [apply (respond_flags rev n st j ok)|apply IH].
Qed.

Lemma ResumeInv_fill (n : nat) (F0 : gset nat) (st : Dispatch) :
  ResumeInv n F0 st -> ResumeInv n F0 (mergeAll_fill st).
Proof.
  intros [(consumed & Hseq & Hposts) Hfl Hap Hmono]. unfold mergeAll_fill.
  destruct (subscribeBuffered_split (flags st) (buffer st) (active st) (posts st))
    as (b1 & Hb & Ha & Hp).
  destruct (subscribeBuffered (flags st) (buffer st) (active st) (posts st))
    as [[b a] p]. simpl in Hb, Ha, Hp.
  assert (Hnew : filter (λ i, i ∉ flags st) b1 = filter (λ i, i ∉ F0) b1).
  { apply filter_ext_elem. intros i Hi.
    assert (i ∈ buffer st) as Hib by (rewrite Hb; set_solver).
    by rewrite (Hfl i Hib). }
  rewrite Hnew in *. subst a p. constructor; simpl.
  - exists (consumed ++ b1). split.
    + by rewrite <- app_assoc, <- Hb.
    + by rewrite filter_app, Hposts.
  - intros i Hi. apply Hfl. rewrite Hb. set_solver.
  - intros i [Hi|Hi]%elem_of_app; set_solver.
  - done.
Qed.

Lemma ResumeInv_respond (rev : Revision) (n : nat) (F0 : gset nat) (st : Dispatch)
    (answer : nat * bool) :
  ResumeInv n F0 st -> ResumeInv n F0 (respond rev n st answer).
Proof.
  intros HI. destruct answer as [j ok]. unfold respond.
  destruct (failure st) eqn:Hfail; [done|].
  case_bool_decide as Hj; [|done].
  pose proof HI as [(consumed & Hseq & Hposts) Hfl Hap Hmono].
  assert (Hjb : j ∉ buffer st).
  { apply (consumed_fresh n consumed (buffer st) j Hseq).
    apply Hap in Hj. rewrite Hposts in Hj. by apply list_elem_of_filter in Hj as [_ ?]. }
  assert (Hbase : forall (a' : ChunkScan) (hv sv : bool) (sn : nat) (f : option RunError),
    ResumeInv n F0
      {| flags := (if ok then {[j]} ∪ flags st else flags st); buffer := buffer st;
         active := filter (λ i, i ≠ j) (active st); posts := posts st; acc := a';
         hasValue := hv; seenValue := sv; seen := sn; failure := f |}).
  { intros a' hv sv sn f. constructor; simpl.
    - by exists consumed.
    - intros i Hi. rewrite <- (Hfl i Hi). destruct ok; [|done].
      assert (i <> j) by (intros ->; done). set_solver.
    - intros i [_ Hi]%list_elem_of_filter. by apply Hap.
    - destruct ok; set_solver. }
  destruct (scanChunk rev n (acc st) {| index := j; completed := ok |}) as [a'|a'].
  - unfold single_next. cbn [flags buffer active posts acc hasValue seenValue seen failure].
    destruct (all_complete n a' && seenValue st); cbn [failure].
    + apply Hbase.
    + apply ResumeInv_fill, Hbase.
  - apply Hbase.
Qed.

Lemma ResumeInv_run (rev : Revision) (n : nat) (F0 : gset nat)
    (answers : list (nat * bool)) :
  forall st : Dispatch, ResumeInv n F0 st -> ResumeInv n F0 (run rev n st answers).
Proof.
  induction answers as [|a answers IH]; intros st HI; [done|].
  apply IH. by apply ResumeInv_respond.
Qed.

Lemma ResumeInv_subscribe (n : nat) (F0 : gset nat) (a : ChunkScan) :
  ResumeInv n F0 (subscribe n F0 a).
Proof.
  apply ResumeInv_fill. constructor; simpl.
  - by exists [].
  - done.
  - intros i Hi. by apply elem_of_nil in Hi.
  - done.
Qed.

(** X9.  Pause and resume do not repeat finished work: a chunk whose POST
    succeeded sets its [completed] flag, the flag stays set for the rest of
    the subscription, and a re-subscription to the same observable starts
    from the accumulator the previous subscription left and never POSTs a
    flagged chunk again, whatever the transport answers. *)
Theorem completed_chunks_not_posted_again (rev : Revision) (n : nat) (st : Dispatch)
    (j : nat) (answers1 answers2 : list (nat * bool)) :
  failure st = None -> j ∈ active st ->
  j ∈ flags (run rev n (respond rev n st (j, true)) answers1) /\
  acc (resubscribe n (run rev n (respond rev n st (j, true)) answers1))
    = acc (run rev n (respond rev n st (j, true)) answers1) /\
  forall i : nat,
    i ∈ flags (run rev n (respond rev n st (j, true)) answers1) ->
    i ∉ posts (run rev n
                 (resubscribe n (run rev n (respond rev n st (j, true)) answers1))
                 answers2).
Proof.
  intros Hf Hj. set (st1 := run rev n (respond rev n st (j, true)) answers1).
  split; [|split].
  - apply (run_flags rev n answers1). by apply (respond_flags rev n st j true).
  - unfold resubscribe, subscribe.
    match goal with |- acc (mergeAll_fill ?s) = _ =>
      by rewrite (proj1 (mergeAll_fill_keeps s)) end.
  - intros i Hi.
    pose proof (ResumeInv_run rev n (flags st1) answers2 _
                  (ResumeInv_subscribe n (flags st1) (acc st1))) as HI.
    destruct (ri_consumed _ _ _ HI) as (consumed & _ & Hposts).
    unfold resubscribe. rewrite Hposts, list_elem_of_filter. tauto.
Qed.

Lemma completed_chunks_not_posted_again_witness :
  let st := uploadAllChunks RevA chunks5 (meta5 []) [] in
  let st1 := run RevA 5 (respond RevA 5 st (0%nat, true)) [(1, false)]%nat in
  failure st = None /\ 0%nat ∈ active st /\
  posts (run RevA 5 (resubscribe 5 st1) [(1, true); (2, true); (3, true); (4, true)]%nat)
    = [1; 2; 3; 4]%nat /\
  0%nat ∉ posts (run RevA 5 (resubscribe 5 st1)
                   [(1, true); (2, true); (3, true); (4, true)]%nat).
Proof.
  intros st st1.
  assert (Hf : failure st = None) by (vm_compute; reflexivity).
  assert (Ha : active st = [0; 1; 2]%nat) by (vm_compute; reflexivity).
  assert (Hj : 0%nat ∈ active st) by (rewrite Ha; left).
  split; [exact Hf|]. split; [exact Hj|]. split; [vm_compute; reflexivity|].
  destruct (completed_chunks_not_posted_again RevA 5 st 0%nat [(1, false)]%nat
              [(1, true); (2, true); (3, true); (4, true)]%nat Hf Hj) as (Hflag & _ & Hskip).
  exact (Hskip 0%nat Hflag).
Defined.

(** ** Session opener: cache and overlap *)

(** X10.  Once a [FileMeta] is cached, the opener never issues another
    session-open POST: whatever subscriptions and replies follow, the count of
    POSTs stays as it is and the cache stays filled. *)
Theorem cached_opener_never_posts (events : list OpenerEvent) (o : Opener) :
  cache o <> None ->
  startPosts (foldl opener_step o events) = startPosts o /\
  cache (foldl opener_step o events) <> None.
Proof.
  revert o. induction events as [|e events IH]; intros o Hc; [done|].
  cbn [foldl].
  assert (Hstep : cache (opener_step o e) <> None /\
                  startPosts (opener_step o e) = startPosts o).
  { destruct e as [|fileMeta]; unfold opener_step, startChunkUpload_defer.
    - destruct (cache o) eqn:Hco; [|done]. cbn. by rewrite ?Hco.
    - by destruct (awaiting o). }
  destruct Hstep as [Hc' Hp']. destruct (IH _ Hc') as [Hp Hc'']. split; [congruence|done].
Qed.

Lemma cached_opener_never_posts_witness :
  cache (opener_run [Subscribe; Reply (meta5 [])]) <> None /\
  startPosts (foldl opener_step (opener_run [Subscribe; Reply (meta5 [])])
                [Subscribe; Reply (meta5 [1%nat]); Subscribe; Subscribe]) = 1%nat.
Proof.
  assert (Hc : cache (opener_run [Subscribe; Reply (meta5 [])]) <> None)
    by (cbn; discriminate).
  split; [exact Hc|].
  exact (proj1 (cached_opener_never_posts
                  [Subscribe; Reply (meta5 [1%nat]); Subscribe; Subscribe] _ Hc)).
Defined.

(** X11.  [startChunkUpload] alone does not share a request in flight: [k]
    subscriptions made before any reply issue [k] session-open POSTs, and
    nothing is delivered or cached until a reply arrives. *)
Theorem overlapping_subscriptions_all_post (k : nat) :
  startPosts (opener_run (repeat Subscribe k)) = k /\
  awaiting (opener_run (repeat Subscribe k)) = k /\
  cache (opener_run (repeat Subscribe k)) = None /\
  delivered (opener_run (repeat Subscribe k)) = [].
Proof.
  unfold opener_run.
  assert (Hgen : forall o : Opener, cache o = None ->
    foldl opener_step o (repeat Subscribe k) =
    {| cache := None; startPosts := (k + startPosts o)%nat;
       awaiting := (k + awaiting o)%nat; delivered := delivered o |}).
  { induction k as [|k IH]; intros o Hc.
    - cbn. destruct o; cbn in *. by subst.
    - cbn [repeat foldl]. rewrite IH.
      + unfold opener_step, startChunkUpload_defer. rewrite Hc. cbn.
        f_equal; lia.
      + unfold opener_step, startChunkUpload_defer. by rewrite Hc. }
  rewrite Hgen by done. cbn. repeat split; lia.
Qed.

(** ** Progress stage: the last value *)

Lemma last_or_cons {A : Type} (d x : A) (l : list A) :
  last_or d (x :: l) = last_or x l.
Proof.
  unfold last_or. destruct l as [|y l]; [done|].
  rewrite last_cons. by destruct (last (y :: l)).
Qed.

Lemma distinctUntilChanged_last_max (values : list Q) :
  forall k : Q,
    (k <= last_or k (distinctUntilChanged greater (Some k) values))%Q /\
    Forall (λ v, (v <= last_or k (distinctUntilChanged greater (Some k) values))%Q) values.
Proof.
  induction values as [|v rest IH]; intros k.
  - split; [apply Qle_refl|constructor].
  - rewrite distinctUntilChanged_step. destruct (Qlt_le_dec v k) as [Hlt|Hle].
    + destruct (IH k) as [Hk Hall]. split; [done|]. constructor; [|done].
      apply Qle_trans with k; [by apply Qlt_le_weak|done].
    + rewrite last_or_cons. destruct (IH v) as [Hv Hall]. split.
      * by apply Qle_trans with v.
      * by constructor.
Qed.

(** X12.  For a file of non-zero size (where the quotient over the
    rationals is the quotient the code computes), the last progress value
    emitted is the largest aggregate computed so far, and the first aggregate
    computed is always emitted: a subscriber that keeps only the latest value
    always holds the maximum reached. *)
Theorem last_progress_is_maximum (fileMeta : FileMeta) (events : list ChunkProgress) :
  0 < fileSize fileMeta ->
  events <> [] ->
  exists e : Q,
    last (progress fileMeta events) = Some e /\
    head (progress fileMeta events) =
      head (map (progressOf fileMeta) (scan_states ∅ events)) /\
    Forall (λ v, (v <= e)%Q) (map (progressOf fileMeta) (scan_states ∅ events)).
Proof.
  intros _ Hne. unfold progress. destruct events as [|cp rest]; [done|].
  cbn [scan_states map distinctUntilChanged].
  set (v := progressOf fileMeta (scanProgress ∅ cp)).
  set (values := map (progressOf fileMeta) (scan_states (scanProgress ∅ cp) rest)).
  destruct (distinctUntilChanged_last_max values v) as [Hv Hall].
  exists (last_or v (distinctUntilChanged greater (Some v) values)).
  split; [|split; [done|by constructor]].
  unfold last_or. rewrite last_cons. by destruct (last _).
Qed.

Lemma last_progress_is_maximum_witness :
  let events := [ {| cp_index := 0; loaded := 50 |};
                  {| cp_index := 1; loaded := 100 |};
                  {| cp_index := 0; loaded := 0 |} ] in
  0 < fileSize (meta5 []) /\ events <> [] /\
  exists e : Q,
    last (progress (meta5 []) events) = Some e /\
    Forall (λ v, (v <= e)%Q) (map (progressOf (meta5 [])) (scan_states ∅ events)).
Proof.
  intros events. assert (Hne : events <> []) by discriminate.
  assert (Hsize : 0 < fileSize (meta5 [])) by (cbn; lia).
  split; [exact Hsize|]. split; [exact Hne|].
  destruct (last_progress_is_maximum (meta5 []) events Hsize Hne)
    as (e & Hlast & _ & Hmax).
  exists e. split; [exact Hlast|exact Hmax].
Defined.

Lemma foldr_add_shift (l : list Z) (x : Z) :
  foldr Z.add x l = foldr Z.add 0 l + x.
Proof. induction l as [|y l IH]; cbn [foldr]; lia. Qed.

(** The total of an accumulator whose entries are those of a list. *)
Lemma totalLoaded_list (l : list Z) :
  forall m : gmap nat Z,
    (forall i : nat, m !! i = l !! i) -> totalLoaded m = foldr Z.add 0 l.
Proof.
  induction l as [|x l IH] using rev_ind; intros m Hm.
  - assert (m = ∅) as -> by (apply map_eq; intros i; by rewrite Hm, lookup_empty).
    unfold totalLoaded. by rewrite map_fold_empty.
  - assert (Hx : m !! length l = Some x) by (by rewrite Hm, list_lookup_middle).
    unfold totalLoaded in *.
    rewrite (map_fold_delete_L _ _ (length l) x m); [|intros; lia|done].
    rewrite (IH (delete (length l) m)).
    + rewrite foldr_app. cbn [foldr]. rewrite (foldr_add_shift l (x + 0)). lia.
    + intros i. destruct (decide (i = length l)) as [->|Hne].
      * rewrite lookup_delete_eq. symmetry. apply lookup_ge_None_2. lia.
      * rewrite lookup_delete_ne, Hm by done.
        destruct (decide (i < length l)%nat).
        -- by rewrite lookup_app_l.
        -- rewrite !lookup_ge_None_2; [done|lia|rewrite length_app; simpl; lia].
Qed.

Lemma sum_sizes_concat (l : list Blob) :
  foldr Z.add 0 (Blob_size <$> l) = Blob_size (concat l).
Proof.
  unfold Blob_size. induction l as [|b l IH]; [done|].
  cbn [fmap list_fmap foldr concat]. rewrite length_app. cbn in IH. rewrite IH. lia.
Qed.

(** X13.  When the last report of every chunk is its full length (and no
    other index has reported), the aggregate is exactly 1: the slices of the
    file and the progress stage agree on the size of the file. *)
Theorem progress_of_finished_chunks (file : Blob) (fileMeta : FileMeta)
    (events : list ChunkProgress) :
  1 <= chunks fileMeta -> 0 <= chunkSize fileMeta ->
  fileSize fileMeta = Blob_size file -> 0 < fileSize fileMeta ->
  (forall i : nat, latest_loaded i events =
     Blob_size <$> (sliceFile file (chunks fileMeta) (chunkSize fileMeta) !! i)) ->
  totalLoaded (foldl scanProgress ∅ events) = fileSize fileMeta /\
  (progressOf fileMeta (foldl scanProgress ∅ events) == 1)%Q.
Proof.
  intros Hn Hc Hsize Hpos Hlatest.
  assert (Htotal : totalLoaded (foldl scanProgress ∅ events) = fileSize fileMeta).
  { rewrite (totalLoaded_list
      (Blob_size <$> sliceFile file (chunks fileMeta) (chunkSize fileMeta))).
    - by rewrite sum_sizes_concat, sliceFile_lossless.
    - intros i. by rewrite scan_latest, Hlatest, list_lookup_fmap. }
  split; [exact Htotal|]. unfold progressOf. rewrite Htotal.
  destruct (fileSize fileMeta) as [|p|p]; [lia| |lia].
  unfold Qeq, Qdiv, Qmult, Qinv, inject_Z. cbn. lia.
Qed.

Lemma progress_of_finished_chunks_witness :
  let events := [ {| cp_index := 0; loaded := 40 |};
                  {| cp_index := 1; loaded := 100 |};
                  {| cp_index := 0; loaded := 100 |};
                  {| cp_index := 2; loaded := 100 |};
                  {| cp_index := 4; loaded := 100 |};
                  {| cp_index := 3; loaded := 100 |} ] in
  1 <= chunks (meta5 []) /\ 0 <= chunkSize (meta5 []) /\
  fileSize (meta5 []) = Blob_size file500 /\ 0 < fileSize (meta5 []) /\
  (progressOf (meta5 []) (foldl scanProgress ∅ events) == 1)%Q.
Proof.
  intros events.
  assert (Hsize : fileSize (meta5 []) = Blob_size file500) by (vm_compute; reflexivity).
  split; [simpl; lia|]. split; [simpl; lia|]. split; [exact Hsize|]. split; [simpl; lia|].
  apply (progress_of_finished_chunks file500 (meta5 []) events);
    [simpl; lia|simpl; lia|exact Hsize|simpl; lia|].
  intros i. do 5 (destruct i as [|i]; [vm_compute; reflexivity|]).
  vm_compute. reflexivity.
Defined.

(** ** Control plane: abort, retry and errors *)

Lemma abort_result (eng : Engine) :
  (forall name : SubjectName, closed (subjects eng name) = false) ->
  isStopped (subjects eng abortSubject) = false ->
  observers (subjects eng abortSubject) = [AbortNotifier; AbortFlags] ->
  AbortNotifier ∉ stopped eng ->
  exists eng' : Engine,
    cleanUp (with_stopped (stopped eng ++ [AbortNotifier]) eng) = Ok eng' /\
    abort eng =
    Ok {| subjects := subjects eng'; startEvents := startEvents eng';
          stopped := stopped eng'; inbox := inbox eng'; upstreamDone := true;
          upstreamFailed := upstreamFailed eng'; output := output eng' |}.
Proof.
  intros Hopen Hlive Hobs Hfirst.
  destruct (cleanUp_open (with_stopped (stopped eng ++ [AbortNotifier]) eng) Hopen)
    as (eng' & Hclean & _ & _ & _ & Hstopped).
  exists eng'. split; [exact Hclean|].
  assert (Hflags : AbortFlags ∈ stopped eng').
  { apply (Hstopped abortSubject). cbn. rewrite Hobs. set_solver. }
  unfold abort, Subject_next. rewrite Hopen, Hlive, Hobs. cbn [negb foldl].
  unfold Observer_next at 2. rewrite bool_decide_eq_false_2 by done. rewrite Hclean.
  unfold Observer_next. cbn [stopped]. by rewrite bool_decide_eq_true_2.
Qed.

(** X15.  [abort()] is final (revision B): on a live engine it returns
    without throwing, and afterwards every method, a second [abort()]
    included, returns at once and leaves the engine as it is. *)
Theorem abort_is_terminal (eng : Engine) (m : Method) :
  (forall name : SubjectName, closed (subjects eng name) = false) ->
  isStopped (subjects eng abortSubject) = false ->
  observers (subjects eng abortSubject) = [AbortNotifier; AbortFlags] ->
  AbortNotifier ∉ stopped eng ->
  throws (abort eng) = false /\
  (forall name : SubjectName, closed (subjects (result_engine (abort eng)) name) = true) /\
  call m (result_engine (abort eng)) = Ok (result_engine (abort eng)).
Proof.
  intros Hopen Hlive Hobs Hfirst.
  destruct (abort_result eng Hopen Hlive Hobs Hfirst) as (eng' & Hclean & ->).
  cbn [throws result_engine].
  assert (Hclosed : forall name : SubjectName, closed (subjects eng' name) = true)
    by (intros name; by apply (cleanUp_closes _ _ name Hclean)).
  split; [done|]. split; [exact Hclosed|].
  destruct m; unfold call, start, pause, resume, retry, abort; cbn [subjects];
    by rewrite Hclosed.
Qed.

Lemma abort_is_terminal_witness :
  (forall name : SubjectName, closed (subjects opening name) = false) /\
  call call_abort (result_engine (abort opening)) = Ok (result_engine (abort opening)) /\
  call call_retry (result_engine (abort opening)) = Ok (result_engine (abort opening)).
Proof.
  assert (Hopen : forall name : SubjectName, closed (subjects opening name) = false)
    by (intros name; by destruct name).
  assert (Hfirst : AbortNotifier ∉ stopped opening) by (cbn; apply not_elem_of_nil).
  split; [exact Hopen|]. split.
  - exact (proj2 (proj2 (abort_is_terminal opening call_abort Hopen eq_refl eq_refl Hfirst))).
  - exact (proj2 (proj2 (abort_is_terminal opening call_retry Hopen eq_refl eq_refl Hfirst))).
Defined.

(** X16.  [retry()] is not ignored outside an error state (revision B):
    with no retry gate listening, the call still reaches the branch merged
    into the output, which emits [retryable(false)]; nothing else changes. *)
Theorem retry_without_error_emits (eng : Engine) :
  closed (subjects eng retrySubject) = false ->
  isStopped (subjects eng retrySubject) = false ->
  observers (subjects eng retrySubject) = [RetryFlags] ->
  RetryFlags ∉ stopped eng ->
  output_completed eng = false -> upstreamFailed eng = false ->
  throws (retry eng) = false /\
  output (result_engine (retry eng)) = output eng ++ [Retryable false] /\
  inbox (result_engine (retry eng)) = inbox eng /\
  subjects (result_engine (retry eng)) = subjects eng.
Proof.
  intros Hopen Hlive Hobs Hflags Hout Hfail.
  unfold retry, Subject_next. rewrite Hopen, Hlive, Hobs. cbn [negb foldl].
  unfold Observer_next. rewrite bool_decide_eq_false_2 by done.
  unfold emit. rewrite Hout, Hfail. done.
Qed.

Lemma retry_without_error_emits_witness :
  output_completed opening = false /\
  output (result_engine (retry opening))
    = [Start; Pausable true; Retryable false; Retryable false].
Proof.
  assert (Hflags : RetryFlags ∉ stopped opening) by (cbn; apply not_elem_of_nil).
  split; [reflexivity|].
  exact (proj1 (proj2 (retry_without_error_emits opening eq_refl eq_refl eq_refl Hflags
                         eq_refl eq_refl))).
Defined.

Lemma stages_keep_output (v : Value) (names : list SubjectName) :
  forall eng : Engine,
    output (foldl (Observer_next v) eng (Stage <$> names)) = output eng.
Proof.
  induction names as [|name names IH]; intros eng; [done|].
  cbn [fmap list_fmap foldl]. rewrite IH. unfold Observer_next.
  by destruct (bool_decide (Stage name ∈ stopped eng)).
Qed.

(** X17.  Every error that reaches the retry gate is announced, retryable
    or not (revision B): on a live engine the gate's [tap] emits [error(e)]
    and then [retryable(true)], in this order, before the gate decides
    whether to wait for [retry()] or to fail. *)
Theorem every_error_is_announced (e : RunError) (eng : Engine)
    (gates : list SubjectName) :
  closed (subjects eng errorSubject) = false ->
  isStopped (subjects eng errorSubject) = false ->
  observers (subjects eng errorSubject) = [ErrorEvents] ->
  closed (subjects eng retrySubject) = false ->
  isStopped (subjects eng retrySubject) = false ->
  observers (subjects eng retrySubject) = RetryFlags :: (Stage <$> gates) ->
  ErrorEvents ∉ stopped eng -> RetryFlags ∉ stopped eng ->
  output_completed eng = false -> upstreamFailed eng = false ->
  throws (report_error e eng) = false /\
  output (result_engine (report_error e eng))
    = output eng ++ [ErrorEvent e; Retryable true].
Proof.
  intros Heo Hel Heobs Hro Hrl Hrobs Hes Hrs Hout Hfail.
  assert (Herr : Subject_next errorSubject (VError e) eng
                 = Ok (emit [ErrorEvent e] eng)).
  { unfold Subject_next. rewrite Heo, Hel, Heobs. cbn [foldl].
    unfold Observer_next. by rewrite bool_decide_eq_false_2. }
  unfold report_error. rewrite Herr. cbn [and_then].
  unfold emit. rewrite Hout, Hfail. cbn [orb].
  unfold Subject_next. cbn [subjects]. rewrite Hro, Hrl, Hrobs.
  cbn [foldl throws result_engine]. split; [done|]. rewrite stages_keep_output.
  unfold Observer_next. cbn [stopped]. rewrite bool_decide_eq_false_2 by done.
  unfold emit, output_completed in *. cbn [upstreamDone stopped upstreamFailed output] in *.
  rewrite Hout. cbn. by rewrite <- app_assoc.
Qed.

Lemma every_error_is_announced_witness :
  output_completed opening = false /\
  output (result_engine (report_error EmptyError opening))
    = [Start; Pausable true; Retryable false; ErrorEvent EmptyError; Retryable true].
Proof.
  assert (He : ErrorEvents ∉ stopped opening) by (cbn; apply not_elem_of_nil).
  assert (Hr : RetryFlags ∉ stopped opening) by (cbn; apply not_elem_of_nil).
  split; [reflexivity|].
  exact (proj2 (every_error_is_announced EmptyError opening [] eq_refl eq_refl eq_refl
                  eq_refl eq_refl eq_refl He Hr eq_refl eq_refl)).
Defined.
